(** * Root password rotation: a model of [rotation.py] and its properties

    The development embeds the [Rotation] class of [src/rotation.py]:
    the password generator, the per-host worker [set_root_password] with
    its retry loop, the verification login, the persistence helpers, the
    two mail senders and the coordinator [run].

    Everything the program does to the outside world (SSH sessions, SQL
    statements, SMTP deliveries, log records, appends to the two result
    lists) is recorded as an [Event]; a method is a computation that yields
    a trace of events together with a value, an exception or no answer.
    What the outside world answers (does a connection succeed, does an
    insert fail) is an input of the model. *)

From Stdlib Require Import ZArith List String Ascii Bool Lia Permutation Arith.
Import ListNotations.

Local Open Scope string_scope.
Local Open Scope list_scope.
Local Open Scope Z_scope.

(* ================================================================== *)
(** ** A small Python prelude *)

Module Py.

(** The exception classes that occur in the program.  [except Exception]
    catches all of them; [except paramiko.AuthenticationException]
    catches the first one only. *)
Inductive Exn : Type :=
| AuthenticationException   (* paramiko: the server refused the secret *)
| SSHException              (* paramiko: any other protocol failure *)
| OSError                   (* socket errors, time-outs *)
| KeyError                  (* missing dictionary key *)
| TypeError                 (* operation applied to None *)
| ValueError                (* encrypt / decrypt failure *)
| FileNotFoundError         (* a file that cannot be opened *)
| SQLAlchemyError           (* database failure *)
| SMTPException.            (* mail relay failure *)

Definition is_AuthenticationException (e : Exn) : bool :=
  match e with AuthenticationException => true | _ => false end.

(** How a call ends: with a value, with an exception, or not at all
    (the latter only arises from [while True]). *)
Inductive Result (A : Type) : Type :=
| Ret (a : A)
| Raise (e : Exn)
| Diverge.
Arguments Ret {A} a.
Arguments Raise {A} e.
Arguments Diverge {A}.

(** What an outside collaborator answers to a query. *)
Inductive Answer (A : Type) : Type :=
| Gives (a : A)
| Fails (e : Exn).
Arguments Gives {A} a.
Arguments Fails {A} e.

(** [range(lo, hi)]: empty when [hi <= lo]. *)
Definition range (lo hi : Z) : list Z :=
  map (fun k => lo + Z.of_nat k) (seq 0 (Z.to_nat (hi - lo))).

(** A dictionary with string keys; [d[k]] raises [KeyError] on a missing
    key and [TypeError] when [d] is [None]. *)
Definition Dict : Type := list (string * string).

Fixpoint dict_lookup (d : Dict) (k : string) : option string :=
  match d with
  | [] => None
  | (k', v) :: d' => if String.eqb k' k then Some v else dict_lookup d' k
  end.

Definition dict_set (d : Dict) (k v : string) : Dict :=
  (k, v) :: filter (fun kv => negb (String.eqb (fst kv) k)) d.

Definition subscript (d : option Dict) (k : string) : Result string :=
  match d with
  | None => Raise TypeError
  | Some d' =>
      match dict_lookup d' k with
      | Some v => Ret v
      | None => Raise KeyError
      end
  end.

(** [x in l] on a list of strings; on [None] the test raises
    [TypeError]. *)
Definition contains (l : option (list string)) (x : string) : Result bool :=
  match l with
  | None => Raise TypeError
  | Some l' => Ret (existsb (String.eqb x) l')
  end.

End Py.
Import Py.

(* ================================================================== *)
(** ** Events and log messages *)

(** The messages the program writes to its logs, one constructor per
    format string of the source. *)
Inductive LogMsg : Type :=
| MsgStarted (server : string)
| MsgChanged (server : string)
| MsgSucceeded (server : string)
| MsgRetrying (server : string) (attempt max_attempts : Z) (error : Exn)
| MsgGaveUp (server : string) (max_attempts : Z) (error : Exn)
| MsgReportStarted
| MsgReportSent
| MsgReportFailed (error : Exn)
| MsgOldPasswordsFailed (error : Exn)
| MsgValidating (server : string)
| MsgValidationFailed (server : string) (error : Exn)
| MsgHistoryInsertFailed (error : Exn)
| MsgHistoryQueryFailed (error : Exn)
| MsgUpdateFailed (server : string) (error : Exn)
| MsgAlertStarted
| MsgAlertSent
| MsgAlertFailed (error : Exn).

Inductive Event : Type :=
| FileLog (message : LogMsg) (hostname : string)
| DbLog (message : LogMsg) (hostname : string)
| SelectOldPasswords
| SelectHistory
| SshConnectStored (server : string)                 (* login with the stored credential *)
| SshChange (server new_password : string)           (* the change command, fed the secret twice *)
| SshConnectNew (server password : string)           (* login with the new secret *)
| SshClose
| Sleep (seconds : Z)
| InsertRootPassword (server new_password : string)
| InsertHistory (server password : string)
| AppendSuccess (server : string)
| AppendFail (server : string)
| SmtpAlert (hostname : string) (error : Exn)
| SmtpReport (success_rows failed_rows : string).

Definition Trace : Type := list Event.

(* ================================================================== *)
(** ** Computations: a trace and a result *)

Definition M (A : Type) : Type := (Trace * Result A)%type.

Definition ret {A} (a : A) : M A := ([], Ret a).
Definition raise {A} (e : Exn) : M A := ([], Raise e).
Definition emit (ev : Event) : M unit := ([ev], Ret tt).

Definition bind {A B} (m : M A) (k : A -> M B) : M B :=
  match m with
  | (t, Ret a) => let (t', r) := k a in (t ++ t', r)
  | (t, Raise e) => (t, Raise e)
  | (t, Diverge) => (t, Diverge)
  end.

Notation "x <- m ;; k" := (bind m (fun x => k))
  (at level 61, m at next level, right associativity).
Notation "m ;; k" := (bind m (fun _ => k))
  (at level 61, right associativity).

(** [try: m except Exception as error: h error] *)
Definition try_except {A} (m : M A) (h : Exn -> M A) : M A :=
  match m with
  | (t, Raise e) => let (t', r) := h e in (t ++ t', r)
  | other => other
  end.

(** [try: m except C as error: h error], for the class recognised by [c]. *)
Definition try_except_class {A} (c : Exn -> bool) (m : M A) (h : Exn -> M A) : M A :=
  match m with
  | (t, Raise e) => if c e then let (t', r) := h e in (t ++ t', r) else (t, Raise e)
  | other => other
  end.

(** [try: m finally: c], where [c] does not raise. *)
Definition finally {A} (m : M A) (c : Trace) : M A := (fst m ++ c, snd m).

(** An outside call that either goes through or raises. *)
Definition call (answer : option Exn) : M unit :=
  match answer with
  | None => ret tt
  | Some e => raise e
  end.

(** [CustomLogger._log]: the record carries the host name only when the
    name is not empty ([extra = {'hostname': hostname} if hostname else
    {}]); the format of the file handler needs it, so a record for the
    empty name cannot be formatted and is not written (the handler reports
    the error on its own and the call returns). *)
Definition file_log (message : LogMsg) (hostname : string) : M unit :=
  match hostname with
  | EmptyString => ret tt
  | String _ _ => emit (FileLog message hostname)
  end.

(** [db_log] catches every exception itself (it falls back to the file
    log), so to its caller it is a call that always returns. *)
Definition db_log (message : LogMsg) (hostname : string) : M unit :=
  emit (DbLog message hostname).

(* ================================================================== *)
(** ** The password generator *)

(** [string.ascii_letters + string.digits + '!@#$'] *)
Definition characters : string :=
  "abcdefghijklmnopqrstuvwxyzABCDEFGHIJKLMNOPQRSTUVWXYZ0123456789!@#$".

(** The random source: the answer of the [n]-th call of the secure
    generator; [secrets.choice(s)] takes it below [len(s)]. *)
Definition Source : Type := nat -> nat.

Definition choice (src : Source) (pos : nat) (s : string) : ascii :=
  nth (src pos mod String.length s) (list_ascii_of_string s) "000"%char.

(** [''.join(secrets.choice(characters) for _ in range(n))], drawing from
    position [pos] of the source. *)
Fixpoint join_choices (src : Source) (pos n : nat) : string :=
  match n with
  | O => EmptyString
  | S n' => String (choice src pos characters) (join_choices src (S pos) n')
  end.

(** The [while True] loop of [generate_random_password]: [fuel] bounds the
    number of rounds the model follows. *)
Fixpoint generate_loop (fuel : nat) (src : Source) (pos : nat) (n : nat)
    (root_pass_history_list : option (list string)) : Result string :=
  match fuel with
  | O => Diverge
  | S fuel' =>
      let random_pass := join_choices src pos n in
      match contains root_pass_history_list random_pass with
      | Ret false => Ret random_pass
      | Ret true => generate_loop fuel' src (pos + n) n root_pass_history_list
      | Raise e => Raise e
      | Diverge => Diverge
      end
  end.

(** The generator proper, given the history it read:
    [range(pass_len)] has [max 0 pass_len] elements. *)
Definition generate (fuel : nat) (src : Source) (pass_len : Z)
    (root_pass_history_list : option (list string)) : Result string :=
  generate_loop fuel src 0 (Z.to_nat pass_len) root_pass_history_list.

(** [get_password_history]: the query and the decryption of its rows are
    inside the [try]; on any exception the method logs and falls off its
    end, returning [None]. *)
Definition get_password_history (answer : Answer (list string))
  : M (option (list string)) :=
  try_except
    (emit SelectHistory ;;
     match answer with
     | Gives password_history_list_decrypted =>
         ret (Some password_history_list_decrypted)
     | Fails e => raise e
     end)
    (fun error => file_log (MsgHistoryQueryFailed error) "NA" ;; ret None).

Definition generate_random_password (fuel : nat) (src : Source)
    (history_answer : Answer (list string)) (pass_len : Z) : M string :=
  root_pass_history_list <- get_password_history history_answer ;;
  ([], generate fuel src pass_len root_pass_history_list).

(* ================================================================== *)
(** ** The rotation object and the outside world of one attempt *)

(** The fields of [self] the methods read.  The two result lists are the
    only fields written after construction; they live in [Lists]. *)
Record Rotation : Type := {
  password_length : Z;
  max_attempts : Z;
  old_passwords : option Dict;
  new_password_generated : string
}.

Record Lists : Type := {
  password_change_success_host_list : list string;
  password_change_fail_host_list : list string
}.

(** What a mail call meets: reading and formatting the template happens
    before the [try], the delivery inside it. *)
Record Mail : Type := {
  template : option Exn;
  smtp : option Exn
}.

(** What one pass through the retry loop meets, call by call. *)
Record Attempt : Type := {
  decrypt_stored : option Exn;   (* credential_decrypter on the stored credential *)
  connect_stored : option Exn;   (* ssh.connect with the stored credential *)
  change_command : option Exn;   (* exec_command, the two writes, reading the output *)
  connect_new : option Exn;      (* ssh.connect with the new secret *)
  encrypt_new : option Exn;      (* credential_encrypter on the new secret *)
  insert_root : option Exn;      (* the insert into the credential table *)
  insert_history : option Exn;   (* the insert into the history table *)
  alert : Mail                   (* the alert mail, if one is sent *)
}.

(* ================================================================== *)
(** ** The methods of [Rotation] *)

Definition verify_server_login (self : Rotation) (w : Attempt)
    (server_name : string) : M bool :=
  try_except_class is_AuthenticationException
    (emit (SshConnectNew server_name (new_password_generated self)) ;;
     call (connect_new w) ;;
     file_log (MsgValidating server_name) server_name ;;
     db_log (MsgValidating server_name) server_name ;;
     ret true)
    (fun error =>
       file_log (MsgValidationFailed server_name error) server_name ;;
       db_log (MsgValidationFailed server_name error) server_name ;;
       ret false).

Definition update_password_to_database (self : Rotation) (w : Attempt)
    (server_name : string) : M unit :=
  _ <- ([], subscript (old_passwords self) server_name) ;;
  call (encrypt_new w) ;;
  try_except
    (emit (InsertRootPassword server_name (new_password_generated self)) ;;
     call (insert_root w))
    (fun error => file_log (MsgUpdateFailed server_name error) "NA").

Definition store_password_history (self : Rotation) (w : Attempt)
    (server_name : string) : M unit :=
  try_except
    (emit (InsertHistory server_name (new_password_generated self)) ;;
     call (insert_history w))
    (fun error => file_log (MsgHistoryInsertFailed error) "NA").

Definition send_alert_mail (mail : Mail) (hostname : string) (error_msg : Exn)
  : M unit :=
  call (template mail) ;;
  try_except
    (file_log MsgAlertStarted hostname ;;
     emit (SmtpAlert hostname error_msg) ;;
     call (smtp mail) ;;
     file_log MsgAlertSent hostname)
    (fun error => file_log (MsgAlertFailed error) hostname).

(** How one pass of the [for] loop ends when it does not raise. *)
Inductive Flow : Type := Break | Next.

(** The body of the [try] in [set_root_password]. *)
Definition attempt_body (self : Rotation) (w : Attempt)
    (server new_password : string) : M Flow :=
  _ <- ([], subscript (old_passwords self) server) ;;
  call (decrypt_stored w) ;;
  emit (SshConnectStored server) ;;
  call (connect_stored w) ;;
  file_log (MsgStarted server) server ;;
  db_log (MsgStarted server) server ;;
  emit (SshChange server new_password) ;;
  call (change_command w) ;;
  file_log (MsgChanged server) server ;;
  db_log (MsgChanged server) server ;;
  emit (Sleep 60) ;;
  verified <- verify_server_login self w server ;;
  (if (verified : bool) then
     file_log (MsgSucceeded server) server ;;
     db_log (MsgSucceeded server) server ;;
     update_password_to_database self w server ;;
     store_password_history self w server ;;
     emit (AppendSuccess server)
   else
     emit (AppendFail server)) ;;
  ret Break.

(** The [except Exception as error] handler of [set_root_password]. *)
Definition on_error (self : Rotation) (w : Attempt) (server : string)
    (attempt : Z) (error : Exn) : M Flow :=
  (if attempt <? max_attempts self then
     file_log (MsgRetrying server attempt (max_attempts self) error) server ;;
     db_log (MsgRetrying server attempt (max_attempts self) error) server ;;
     send_alert_mail (alert w) server error ;;
     emit (Sleep 1200)
   else
     file_log (MsgGaveUp server (max_attempts self) error) server ;;
     db_log (MsgGaveUp server (max_attempts self) error) server ;;
     emit (AppendFail server)) ;;
  ret Next.

(** One pass: [try] the body, handle, and [finally] close the session. *)
Definition one_attempt (self : Rotation) (w : Attempt)
    (server new_password : string) (attempt : Z) : M Flow :=
  finally
    (try_except (attempt_body self w server new_password)
                (on_error self w server attempt))
    [SshClose].

(** [for attempt in attempts: ...], the world of each pass given by [env]. *)
Fixpoint for_attempts (self : Rotation) (env : Z -> Attempt)
    (server new_password : string) (attempts : list Z) : M unit :=
  match attempts with
  | [] => ret tt
  | attempt :: rest =>
      flow <- one_attempt self (env attempt) server new_password attempt ;;
      match flow with
      | Break => ret tt
      | Next => for_attempts self env server new_password rest
      end
  end.

Definition set_root_password (self : Rotation) (env : Z -> Attempt)
    (server new_password : string) : M unit :=
  for_attempts self env server new_password (range 1 (max_attempts self + 1)).

(* ================================================================== *)
(** ** The two result lists, read off a trace *)

Definition exec_event (l : Lists) (ev : Event) : Lists :=
  match ev with
  | AppendSuccess server =>
      {| password_change_success_host_list :=
           password_change_success_host_list l ++ [server];
         password_change_fail_host_list := password_change_fail_host_list l |}
  | AppendFail server =>
      {| password_change_success_host_list := password_change_success_host_list l;
         password_change_fail_host_list :=
           password_change_fail_host_list l ++ [server] |}
  | _ => l
  end.

(** The lists as [__init__] creates them. *)
Definition empty_lists : Lists :=
  {| password_change_success_host_list := [];
     password_change_fail_host_list := [] |}.

Definition lists_after (t : Trace) : Lists := fold_left exec_event t empty_lists.

(** Observations on a trace. *)
Definition successes (t : Trace) : list string :=
  flat_map (fun ev => match ev with AppendSuccess s => [s] | _ => [] end) t.
Definition failures (t : Trace) : list string :=
  flat_map (fun ev => match ev with AppendFail s => [s] | _ => [] end) t.
(** The hosts appended to either list, in the order of the appends. *)
Definition appended (t : Trace) : list string :=
  flat_map (fun ev => match ev with
                      | AppendSuccess s | AppendFail s => [s]
                      | _ => []
                      end) t.

Definition is_alert (ev : Event) : bool :=
  match ev with SmtpAlert _ _ => true | _ => false end.
Definition is_close (ev : Event) : bool :=
  match ev with SshClose => true | _ => false end.
Definition is_backoff (ev : Event) : bool :=
  match ev with Sleep s => s =? 1200 | _ => false end.
Definition is_history_read (ev : Event) : bool :=
  match ev with SelectHistory => true | _ => false end.
Definition is_worker_event (ev : Event) : bool :=
  match ev with
  | FileLog _ _ | SelectOldPasswords | SelectHistory => false
  | _ => true
  end.

Definition count (p : Event -> bool) (t : Trace) : nat := List.length (filter p t).

(** Alert mails handed to the relay. *)
Definition alerts (t : Trace) : nat := count is_alert t.
(** Passes through the retry loop: each one closes the session once. *)
Definition tries (t : Trace) : nat := count is_close t.
(** Retries: each one waits the backoff once. *)
Definition retries (t : Trace) : nat := count is_backoff t.

(** An event with the text of a file-log record blanked. *)
Definition shadow (ev : Event) : option Event :=
  match ev with
  | FileLog _ _ => None
  | other => Some other
  end.

(** The secret an event carries, if it carries one. *)
Definition secret_of (ev : Event) : option string :=
  match ev with
  | SshChange _ p | SshConnectNew _ p | InsertRootPassword _ p | InsertHistory _ p =>
      Some p
  | _ => None
  end.

(* ================================================================== *)
(** ** The coordinator *)

(** [generate_table_rows_for_mail] *)
Definition table_rows (hosts : list string) : string :=
  fold_left (fun rows i => rows ++ "<tr><td>" ++ i ++ "</td></tr>")%string hosts "".

Definition generate_table_rows_for_mail (l : Lists) : string * string :=
  (table_rows (password_change_success_host_list l),
   table_rows (password_change_fail_host_list l)).

Definition send_mail (mail : Mail) (l : Lists) : M unit :=
  call (template mail) ;;
  let '(table1_rows_html, table2_rows_html) := generate_table_rows_for_mail l in
  try_except
    (file_log MsgReportStarted "NA" ;;
     emit (SmtpReport table1_rows_html table2_rows_html) ;;
     call (smtp mail) ;;
     file_log MsgReportSent "NA")
    (fun error => file_log (MsgReportFailed error) "NA").

(** [get_old_password]: the dictionary of stored credentials, or [None]
    after a logged failure. *)
Definition get_old_password (answer : Answer (list (string * string)))
  : M (option Dict) :=
  try_except
    (emit SelectOldPasswords ;;
     match answer with
     | Gives rows =>
         ret (Some (fold_left (fun d row => dict_set d (fst row) (snd row)) rows []))
     | Fails e => raise e
     end)
    (fun error => file_log (MsgOldPasswordsFailed error) "NA" ;; ret None).

(** The part of the configuration and of the outside world [__init__]
    reads. *)
Record Startup : Type := {
  cfg_password_length : Z;
  cfg_max_attempts : Z;
  old_password_rows : Answer (list (string * string));
  history_rows : Answer (list string);
  source : Source
}.

Definition __init__ (fuel : nat) (s : Startup) : M Rotation :=
  old <- get_old_password (old_password_rows s) ;;
  new_password <-
    generate_random_password fuel (source s) (history_rows s) (cfg_password_length s) ;;
  ret {| password_length := cfg_password_length s;
         max_attempts := cfg_max_attempts s;
         old_passwords := old;
         new_password_generated := new_password |}.

(** The threads [run] starts: thread [i] works on the [i]-th host and meets
    the world [envs i].  An exception that leaves a thread ends that
    thread only, so a thread is the trace of its worker. *)
Fixpoint spawn (self : Rotation) (envs : nat -> Z -> Attempt) (i : nat)
    (hostnames_list : list string) : list Trace :=
  match hostnames_list with
  | [] => []
  | host :: rest =>
      fst (set_root_password self (envs i) host (new_password_generated self))
        :: spawn self envs (S i) rest
  end.

(** The next event of thread [i], if it has one. *)
Fixpoint pop {A} (i : nat) (threads : list (list A)) : option (A * list (list A)) :=
  match threads, i with
  | [], _ => None
  | [] :: _, O => None
  | (ev :: t) :: others, O => Some (ev, t :: others)
  | t :: others, S j =>
      match pop j others with
      | Some (ev, others') => Some (ev, t :: others')
      | None => None
      end
  end.

(** The threads run concurrently: [schedule] names the thread that moves
    next; when it is used up the remaining threads are joined in order. *)
Fixpoint interleave {A} (schedule : list nat) (threads : list (list A)) : list A :=
  match schedule with
  | [] => List.concat threads
  | i :: schedule' =>
      match pop i threads with
      | Some (ev, threads') => ev :: interleave schedule' threads'
      | None => interleave schedule' threads
      end
  end.

Definition run (self : Rotation) (hostnames_list : list string)
    (envs : nat -> Z -> Attempt) (schedule : list nat) (report : Mail) : M unit :=
  let workers := interleave schedule (spawn self envs 0 hostnames_list) in
  (workers, Ret tt) ;;
  send_mail report (lists_after workers).

(** [rotation_obj = Rotation(); rotation_obj.run()] *)
Definition main (fuel : nat) (s : Startup) (hostnames_list : list string)
    (envs : nat -> Z -> Attempt) (schedule : list nat) (report : Mail) : M unit :=
  rotation_obj <- __init__ fuel s ;;
  run rotation_obj hostnames_list envs schedule report.

(* ================================================================== *)
(** ** Vocabulary of the statements *)

(** Every character of [s] is one of [characters]. *)
Definition over_alphabet (s : string) : Prop :=
  Forall (fun c => In c (list_ascii_of_string characters)) (list_ascii_of_string s).

(** The candidate the generator draws in round [round] (rounds count
    from 0), each round consuming [n] answers of the source. *)
Definition candidate (src : Source) (n round : nat) : string :=
  join_choices src (round * n) n.

(** [s] is a string the generator may still hand out. *)
Definition fresh (n : nat) (historySet : list string) (s : string) : Prop :=
  String.length s = n /\ over_alphabet s /\ ~ In s historySet.

(** The history holds every string of length [n] over the alphabet. *)
Definition exhausted (n : nat) (historySet : list string) : Prop :=
  forall s, String.length s = n -> over_alphabet s -> In s historySet.

(** The position of a character in [s] (its length when absent). *)
Fixpoint index_of (c : ascii) (s : string) : nat :=
  match s with
  | EmptyString => O
  | String c' s' => if Ascii.eqb c' c then O else S (index_of c s')
  end.

(** A source whose first round draws [s]. *)
Definition source_drawing (s : string) : Source :=
  fun pos => index_of (nth pos (list_ascii_of_string s) "000"%char) characters.

(** A source is fair for length [n] when every string of that length over
    the alphabet is its candidate in some round. *)
Definition fair (n : nat) (src : Source) : Prop :=
  forall s, String.length s = n -> over_alphabet s ->
            exists round, candidate src n round = s.

(** The source that draws, in round [r], the string whose characters are
    the digits of [r] in base 66, lowest first. *)
Definition enumerating (n : nat) : Source :=
  fun pos => ((pos / n) / 66 ^ (pos mod n))%nat.

(** The round in which [enumerating] draws [s]. *)
Fixpoint rank (s : string) : nat :=
  match s with
  | EmptyString => O
  | String c s' => (index_of c characters + 66 * rank s')%nat
  end.

(** Stages of a pass.  [reaches_verification]: the stored credential is
    found and decrypted, the login with it and the change command go
    through (Connecting and ChangingCredential succeed). *)
Definition is_none {A} (o : option A) : bool :=
  match o with None => true | Some _ => false end.

Definition reaches_verification (self : Rotation) (w : Attempt) (server : string)
  : bool :=
  match subscript (old_passwords self) server with
  | Ret _ => true
  | _ => false
  end
  && is_none (decrypt_stored w) && is_none (connect_stored w)
  && is_none (change_command w).

(** The verification login succeeds. *)
Definition verified (self : Rotation) (w : Attempt) (server : string) : bool :=
  reaches_verification self w server && is_none (connect_new w).

(** The pass leaves the [try] body by an exception: a stage before the
    verification fails, or the verification login fails otherwise than on
    authentication, or the encryption of the verified secret fails. *)
Definition raises_in_body (self : Rotation) (w : Attempt) (server : string) : bool :=
  negb (reaches_verification self w server)
  || match connect_new w with
     | Some e => negb (is_AuthenticationException e)
     | None => negb (is_none (encrypt_new w))
     end.

(** An event of a worker in a batch whose secret is [secret]: it does not
    read the history, and a secret it carries is [secret]. *)
Definition batch_event (secret : string) (ev : Event) : bool :=
  negb (is_history_read ev)
  && match secret_of ev with
     | Some p => String.eqb p secret
     | None => true
     end.

(** The same mail call, the relay answering [answer]. *)
Definition with_relay (answer : option Exn) (mail : Mail) : Mail :=
  {| template := template mail; smtp := answer |}.

(** The same worlds, the relay answering the alert of pass [attempt] with
    [answers attempt]. *)
Definition with_alert_relay (answers : Z -> option Exn) (env : Z -> Attempt)
  : Z -> Attempt :=
  fun attempt =>
    let w := env attempt in
    {| decrypt_stored := decrypt_stored w;
       connect_stored := connect_stored w;
       change_command := change_command w;
       connect_new := connect_new w;
       encrypt_new := encrypt_new w;
       insert_root := insert_root w;
       insert_history := insert_history w;
       alert := with_relay (answers attempt) (alert w) |}.

(* ================================================================== *)
(** ** Sample worlds, for the examples *)

Definition quiet_mail : Mail := {| template := None; smtp := None |}.

(** Every call goes through. *)
Definition world_ok : Attempt :=
  {| decrypt_stored := None; connect_stored := None; change_command := None;
     connect_new := None; encrypt_new := None; insert_root := None;
     insert_history := None; alert := quiet_mail |}.

(** The host cannot be reached with the stored credential. *)
Definition world_unreachable : Attempt :=
  {| decrypt_stored := None; connect_stored := Some OSError; change_command := None;
     connect_new := None; encrypt_new := None; insert_root := None;
     insert_history := None; alert := quiet_mail |}.

(** As [world_unreachable], and the alert template cannot be opened. *)
Definition world_unreachable_no_template : Attempt :=
  {| decrypt_stored := None; connect_stored := Some OSError; change_command := None;
     connect_new := None; encrypt_new := None; insert_root := None;
     insert_history := None;
     alert := {| template := Some FileNotFoundError; smtp := None |} |}.

(** The change goes through, the host then refuses the new secret. *)
Definition world_rejected : Attempt :=
  {| decrypt_stored := None; connect_stored := None; change_command := None;
     connect_new := Some AuthenticationException; encrypt_new := None;
     insert_root := None; insert_history := None; alert := quiet_mail |}.

(** The change goes through, the verification login then times out. *)
Definition world_verify_timeout : Attempt :=
  {| decrypt_stored := None; connect_stored := None; change_command := None;
     connect_new := Some OSError; encrypt_new := None;
     insert_root := None; insert_history := None; alert := quiet_mail |}.

(** The host is rotated and verified, the database is down. *)
Definition world_database_down : Attempt :=
  {| decrypt_stored := None; connect_stored := None; change_command := None;
     connect_new := None; encrypt_new := None;
     insert_root := Some SQLAlchemyError; insert_history := Some SQLAlchemyError;
     alert := quiet_mail |}.

(** The host is rotated and verified; the public key file cannot be
    opened, so the secret cannot be encrypted for storage. *)
Definition world_encrypt_fails : Attempt :=
  {| decrypt_stored := None; connect_stored := None; change_command := None;
     connect_new := None; encrypt_new := Some FileNotFoundError;
     insert_root := None; insert_history := None; alert := quiet_mail |}.

(** Unreachable in the first pass; rotated and verified in the second,
    with the database down. *)
Definition world_late_database_down : Z -> Attempt :=
  fun attempt => if attempt <? 2 then world_unreachable else world_database_down.

(** The relay refuses every alert of an unreachable host. *)
Definition world_unreachable_relay_down : Attempt :=
  {| decrypt_stored := None; connect_stored := Some OSError; change_command := None;
     connect_new := None; encrypt_new := None; insert_root := None;
     insert_history := None;
     alert := {| template := None; smtp := Some SMTPException |} |}.

Definition sample_rotation (max : Z) : Rotation :=
  {| password_length := 12;
     max_attempts := max;
     old_passwords := Some [("alpha", "c1"); ("beta", "c2")];
     new_password_generated := "Xk3$Qz7!mN2@" |}.

(** Thread 0 meets [world_ok], every other thread [world_unreachable]. *)
Definition sample_envs : nat -> Z -> Attempt :=
  fun i _ => match i with O => world_ok | S _ => world_unreachable end.

(** A start-up that reads one old secret from the history. *)
Definition sample_startup : Startup :=
  {| cfg_password_length := 4;
     cfg_max_attempts := 3;
     old_password_rows := Gives [("alpha", "c1"); ("beta", "c2")];
     history_rows := Gives ["abcd"];
     source := fun n => n |}.

(* ================================================================== *)
(** ** Further observations on a trace *)

(** The hosts for which the insert into the credential table, and into
    the history table, is issued, in the order of the inserts. *)
Definition root_inserts (t : Trace) : list string :=
  flat_map (fun ev => match ev with InsertRootPassword s _ => [s] | _ => [] end) t.
Definition history_inserts (t : Trace) : list string :=
  flat_map (fun ev => match ev with InsertHistory s _ => [s] | _ => [] end) t.
Definition is_report (ev : Event) : bool :=
  match ev with SmtpReport _ _ => true | _ => false end.
(** Events that talk to a host. *)
Definition is_ssh_session (ev : Event) : bool :=
  match ev with
  | SshConnectStored _ | SshChange _ _ | SshConnectNew _ _ => true
  | _ => false
  end.

(** A record for the database log whose host name is not empty was
    written to the file log as well, and the file log holds no record for
    the empty name. *)
Definition mirrored (t : Trace) : Prop :=
  (forall m h, In (DbLog m h) t -> h <> "" -> In (FileLog m h) t) /\
  (forall m, ~ In (FileLog m "") t).

(** The seconds a trace spends in [time.sleep]. *)
Fixpoint slept (t : Trace) : Z :=
  match t with
  | [] => 0
  | Sleep seconds :: t' => seconds + slept t'
  | _ :: t' => slept t'
  end.

(** [self.old_passwords[server]] does not raise. *)
Definition has_stored_credential (self : Rotation) (server : string) : bool :=
  match subscript (old_passwords self) server with
  | Ret _ => true
  | _ => false
  end.

(** The dictionary [get_old_password] builds from the rows of the query. *)
Definition password_dict (rows : list (string * string)) : Dict :=
  fold_left (fun d row => dict_set d (fst row) (snd row)) rows [].

(** The last row for [host], if there is one. *)
Definition last_row (rows : list (string * string)) (host : string)
  : option string :=
  match find (fun row => String.eqb (fst row) host) (rev rows) with
  | Some row => Some (snd row)
  | None => None
  end.

(** One table row of the report. *)
Definition table_row (host : string) : string :=
  ("<tr><td>" ++ host ++ "</td></tr>")%string.

(* ================================================================== *)
(** ** Reading the host file *)

(** [str.isspace] on a character below 256. *)
Definition isspace (c : ascii) : bool :=
  let n := nat_of_ascii c in
  ((9 <=? n) && (n <=? 13) || (28 <=? n) && (n <=? 32) || (n =? 133) || (n =? 160))%nat.

Fixpoint lstrip (s : string) : string :=
  match s with
  | EmptyString => EmptyString
  | String c s' => if isspace c then lstrip s' else s
  end.

Fixpoint rstrip (s : string) : string :=
  match s with
  | EmptyString => EmptyString
  | String c s' =>
      match rstrip s' with
      | EmptyString => if isspace c then EmptyString else String c EmptyString
      | kept => String c kept
      end
  end.

(** [line.strip()] *)
Definition strip (line : string) : string := rstrip (lstrip line).

(** [[str(line.strip()) for line in hosts]], [hosts] iterating over the
    lines of the file. *)
Definition read_hostnames (lines : list string) : list string := map strip lines.

(** [run] from the lines of the host file on. *)
Definition run_lines (self : Rotation) (lines : list string)
    (envs : nat -> Z -> Attempt) (schedule : list nat) (report : Mail) : M unit :=
  run self (read_hostnames lines) envs schedule report.



Definition all_space (s : string) : bool :=
  forallb isspace (list_ascii_of_string s).

(* ================================================================== *)
(** ** More sample worlds *)

(** Unreachable in the first two passes, fine from the third on. *)
Definition world_recovering : Z -> Attempt :=
  fun attempt => if attempt <? 3 then world_unreachable else world_ok.


(* ================================================================== *)
(** ** [common_functions.py]: the stored form of a credential *)

(** [bytes.hex()]: two lower-case digits per byte, high digit first. *)
Definition hex_digit (n : nat) : ascii :=
  nth n (list_ascii_of_string "0123456789abcdef") "0"%char.

Fixpoint hex (b : list Byte.byte) : string :=
  match b with
  | [] => EmptyString
  | x :: b' =>
      let n := Byte.to_nat x in
      String (hex_digit (n / 16)) (String (hex_digit (n mod 16)) (hex b'))
  end.

(** The value of a hexadecimal digit, of either case. *)
Definition digit_value (c : ascii) : option nat :=
  let n := nat_of_ascii c in
  if ((48 <=? n) && (n <=? 57))%nat then Some (n - 48)%nat
  else if ((97 <=? n) && (n <=? 102))%nat then Some (n - 87)%nat
  else if ((65 <=? n) && (n <=? 70))%nat then Some (n - 55)%nat
  else None.

(** ASCII white space, which [bytes.fromhex] skips between bytes. *)
Definition is_ascii_space (c : ascii) : bool :=
  let n := nat_of_ascii c in
  ((9 <=? n) && (n <=? 13) || (n =? 32))%nat.

(** [bytes.fromhex(s)]: pairs of digits, white space allowed between
    pairs only; anything else raises [ValueError]. *)
Fixpoint fromhex (s : string) : Result (list Byte.byte) :=
  match s with
  | EmptyString => Ret []
  | String c s1 =>
      if is_ascii_space c then fromhex s1
      else
        match digit_value c, s1 with
        | Some top, String c2 s2 =>
            match digit_value c2 with
            | Some bot =>
                match Byte.of_nat (16 * top + bot), fromhex s2 with
                | Some x, Ret b => Ret (x :: b)
                | None, Ret _ => Raise ValueError
                | _, other => other
                end
            | None => Raise ValueError
            end
        | _, _ => Raise ValueError
        end
  end.

Section Credentials.

(** The collaborators of the two functions: the codec of [str.encode] and
    [bytes.decode], the RSA-OAEP operations of the key pair, and what
    opening and loading a key file answers. *)
Variable encode_utf8 : string -> list Byte.byte.
Variable decode_utf8 : list Byte.byte -> Result string.
Variable public_key_encrypt : list Byte.byte -> Result (list Byte.byte).
Variable private_key_decrypt : list Byte.byte -> Result (list Byte.byte).
Variable public_key_file : option Exn.
Variable private_key_file : option Exn.

Definition credential_encrypter (client_secret : string) : Result string :=
  match public_key_file with
  | Some e => Raise e
  | None =>
      match public_key_encrypt (encode_utf8 client_secret) with
      | Ret ciphertext => Ret (hex ciphertext)
      | Raise e => Raise e
      | Diverge => Diverge
      end
  end.

Definition credential_decrypter (client_secret : string) : Result string :=
  match private_key_file with
  | Some e => Raise e
  | None =>
      match fromhex client_secret with
      | Ret ciphertext =>
          match private_key_decrypt ciphertext with
          | Ret decrypted_message => decode_utf8 decrypted_message
          | Raise e => Raise e
          | Diverge => Diverge
          end
      | Raise e => Raise e
      | Diverge => Diverge
      end
  end.

End Credentials.

(** A stand-in key pair for the examples: encryption reverses the bytes. *)
Definition toy_encrypt (m : list Byte.byte) : Result (list Byte.byte) := Ret (rev m).
Definition toy_decrypt (c : list Byte.byte) : Result (list Byte.byte) := Ret (rev c).
Definition toy_decode (b : list Byte.byte) : Result string :=
  Ret (string_of_list_byte b).

(* ================================================================== *)
(** * Properties *)

(** ** Lists, ranges and traces *)

Lemma range_nil (lo hi : Z) : hi <= lo -> range lo hi = [].
Proof.
  intros H. unfold range.
  replace (Z.to_nat (hi - lo)) with 0%nat by lia. reflexivity.
Qed.

Lemma range_cons (lo hi : Z) : lo < hi -> range lo hi = lo :: range (lo + 1) hi.
Proof.
  intros H. unfold range.
  replace (Z.to_nat (hi - lo)) with (S (Z.to_nat (hi - (lo + 1)))) by lia.
  cbn [seq map]. f_equal; [lia|].
  rewrite <- seq_shift, map_map.
  apply map_ext. intros k. lia.
Qed.

Lemma count_app (p : Event -> bool) (t t' : Trace) :
  count p (t ++ t') = (count p t + count p t')%nat.
Proof. unfold count. now rewrite filter_app, length_app. Qed.

Lemma successes_app (t t' : Trace) : successes (t ++ t') = successes t ++ successes t'.
Proof. apply flat_map_app. Qed.

Lemma failures_app (t t' : Trace) : failures (t ++ t') = failures t ++ failures t'.
Proof. apply flat_map_app. Qed.

Lemma appended_app (t t' : Trace) : appended (t ++ t') = appended t ++ appended t'.
Proof. apply flat_map_app. Qed.

Lemma fold_exec_event (t : Trace) (l : Lists) :
  fold_left exec_event t l =
  {| password_change_success_host_list :=
       password_change_success_host_list l ++ successes t;
     password_change_fail_host_list :=
       password_change_fail_host_list l ++ failures t |}.
Proof.
  revert l. induction t as [|ev t IH]; intros l.
  - destruct l; cbn. now rewrite !app_nil_r.
  - cbn [fold_left]. rewrite IH.
    destruct ev; cbn; rewrite <- ?app_assoc; reflexivity.
Qed.

Lemma lists_after_spec (t : Trace) :
  lists_after t =
  {| password_change_success_host_list := successes t;
     password_change_fail_host_list := failures t |}.
Proof. unfold lists_after. now rewrite fold_exec_event. Qed.

Lemma appended_split (t : Trace) :
  Permutation (successes t ++ failures t) (appended t).
Proof.
  induction t as [|ev t IH]; [constructor|].
  destruct ev; cbn; auto.
  symmetry. apply Permutation_cons_app. now symmetry.
Qed.

(** ** The generator *)

Lemma characters_length : List.length (list_ascii_of_string characters) = 66%nat.
Proof. reflexivity. Qed.

Lemma choice_in (src : Source) (pos : nat) :
  In (choice src pos characters) (list_ascii_of_string characters).
Proof.
  unfold choice. apply nth_In. rewrite characters_length.
  change (String.length characters) with 66%nat.
  apply Nat.mod_upper_bound. discriminate.
Qed.

Lemma join_choices_length (src : Source) (pos n : nat) :
  String.length (join_choices src pos n) = n.
Proof.
  revert pos. induction n as [|n IH]; intros pos; cbn; [reflexivity|].
  now rewrite IH.
Qed.

Lemma join_choices_alphabet (src : Source) (pos n : nat) :
  over_alphabet (join_choices src pos n).
Proof.
  revert pos. induction n as [|n IH]; intros pos; cbn.
  - constructor.
  - constructor; [apply choice_in | apply IH].
Qed.

Lemma contains_false (historySet : list string) (s : string) :
  existsb (String.eqb s) historySet = false <-> ~ In s historySet.
Proof.
  split.
  - intros H Hin.
    assert (existsb (String.eqb s) historySet = true) as E.
    { apply existsb_exists. exists s. split; [assumption | apply String.eqb_refl]. }
    congruence.
  - intros H. destruct (existsb (String.eqb s) historySet) eqn:E; [|reflexivity].
    apply existsb_exists in E. destruct E as [x [Hin Heq]].
    apply String.eqb_eq in Heq. subst x. contradiction.
Qed.

(** A value the loop returns is the candidate of some round, and that
    candidate is not in the history. *)
Lemma generate_loop_returns (fuel : nat) (src : Source) (pos n : nat)
    (historySet : list string) (s : string) :
  generate_loop fuel src pos n (Some historySet) = Ret s ->
  (exists k, s = join_choices src (pos + k * n) n) /\ ~ In s historySet.
Proof.
  revert pos. induction fuel as [|fuel IH]; intros pos; cbn; [discriminate|].
  destruct (existsb _ historySet) eqn:E.
  - intros H. apply IH in H. destruct H as [[k Hk] Hn]. split; [|assumption].
    exists (S k). rewrite Hk. f_equal. lia.
  - intros H. injection H as <-. split.
    + exists 0%nat. f_equal. lia.
    + now apply contains_false.
Qed.

(** The loop returns the candidate of the first round whose candidate is
    not in the history, as soon as the fuel reaches that round. *)
Lemma generate_loop_first_fresh (src : Source) (n : nat) (historySet : list string)
    (k : nat) :
  forall pos fuel,
    ~ In (join_choices src (pos + k * n) n) historySet ->
    (k < fuel)%nat ->
    exists s, generate_loop fuel src pos n (Some historySet) = Ret s.
Proof.
  induction k as [|k IH]; intros pos fuel Hk Hf.
  - destruct fuel as [|fuel]; [lia|]. cbn.
    replace (pos + 0 * n)%nat with pos in Hk by lia.
    apply contains_false in Hk. rewrite Hk. eauto.
  - destruct fuel as [|fuel]; [lia|]. cbn.
    destruct (existsb _ historySet) eqn:E; [|eauto].
    apply IH; [|lia].
    replace (pos + n + k * n)%nat with (pos + S k * n)%nat by lia. exact Hk.
Qed.

Lemma generate_loop_exhausted (fuel : nat) (src : Source) (pos n : nat)
    (historySet : list string) :
  exhausted n historySet ->
  generate_loop fuel src pos n (Some historySet) = Diverge.
Proof.
  intros Hex. revert pos. induction fuel as [|fuel IH]; intros pos; cbn; [reflexivity|].
  assert (In (join_choices src pos n) historySet) as Hin.
  { apply Hex; [apply join_choices_length | apply join_choices_alphabet]. }
  destruct (existsb _ historySet) eqn:E; [apply IH|].
  apply contains_false in E. contradiction.
Qed.

Lemma index_of_nth (c : ascii) (s : string) :
  In c (list_ascii_of_string s) ->
  (index_of c s < String.length s)%nat /\
  nth (index_of c s) (list_ascii_of_string s) "000"%char = c.
Proof.
  induction s as [|c' s IH]; cbn; [contradiction|].
  intros H. destruct (Ascii.eqb c' c) eqn:E.
  - apply Ascii.eqb_eq in E. split; [lia | assumption].
  - destruct H as [H|H]; [subst; rewrite Ascii.eqb_refl in E; discriminate|].
    destruct (IH H) as [Hlt Hnth]. split; [lia | assumption].
Qed.

Lemma join_choices_source_drawing (s : string) :
  forall pre : list ascii,
    over_alphabet s ->
    join_choices (source_drawing (string_of_list_ascii pre ++ s))
                 (List.length pre) (String.length s) = s.
Proof.
  induction s as [|c s IH]; intros pre Hs; cbn [join_choices String.length]; [reflexivity|].
  inversion Hs as [|? ? Hc Hs']; subst.
  f_equal.
  - unfold choice, source_drawing.
    assert (nth (List.length pre)
                (list_ascii_of_string (string_of_list_ascii pre ++ String c s))
                "000"%char = c) as ->.
    { clear. induction pre as [|a pre IH]; cbn; [reflexivity | exact IH]. }
    destruct (index_of_nth c characters Hc) as [Hlt Hnth].
    rewrite Nat.mod_small by exact Hlt. exact Hnth.
  - specialize (IH (pre ++ [c]) Hs').
    rewrite length_app in IH. cbn in IH.
    replace (List.length pre + 1)%nat with (S (List.length pre)) in IH by lia.
    assert (string_of_list_ascii (pre ++ [c]) ++ s
            = string_of_list_ascii pre ++ String c s)%string as E.
    { clear. induction pre as [|a pre IH]; cbn; [reflexivity | now rewrite IH]. }
    rewrite E in IH. exact IH.
Qed.

Lemma first_candidate_source_drawing (s : string) :
  over_alphabet s ->
  candidate (source_drawing s) (String.length s) 0 = s.
Proof.
  intros Hs. unfold candidate.
  exact (join_choices_source_drawing s [] Hs).
Qed.

(** [enumerating n] draws the string [s] in round [rank s]. *)
Lemma join_choices_enumerating (n r : nat) (s : string) :
  forall j,
    over_alphabet s ->
    (j + String.length s = n)%nat ->
    (r / 66 ^ j = rank s)%nat ->
    join_choices (enumerating n) (r * n + j) (String.length s) = s.
Proof.
  induction s as [|c s IH]; intros j Hs Hlen Hr; cbn [String.length join_choices];
    [reflexivity|].
  cbn [String.length] in Hlen.
  inversion_clear Hs as [|? ? Hc Hs']. cbn [rank] in Hr.
  destruct (index_of_nth c characters Hc) as [Hlt Hnth].
  change (String.length characters) with 66%nat in Hlt.
  assert (enumerating n (r * n + j)%nat
          = (index_of c characters + 66 * rank s)%nat) as Hdraw.
  { unfold enumerating.
    rewrite Nat.div_add_l by lia.
    rewrite (Nat.div_small j) by lia.
    rewrite (Nat.add_comm (r * n)), Nat.Div0.mod_add, Nat.mod_small by lia.
    now rewrite Nat.add_0_r. }
  f_equal.
  - unfold choice. rewrite Hdraw.
    change (String.length characters) with 66%nat.
    rewrite (Nat.mul_comm 66), Nat.Div0.mod_add, Nat.mod_small by exact Hlt.
    exact Hnth.
  - replace (S (r * n + j)%nat) with (r * n + S j)%nat by lia.
    apply IH; [exact Hs' | lia |].
    rewrite Nat.pow_succ_r', (Nat.mul_comm 66), <- Nat.Div0.div_div, Hr.
    rewrite Nat.add_comm, (Nat.mul_comm 66), Nat.div_add_l by lia.
    rewrite Nat.div_small by exact Hlt. lia.
Qed.

Lemma enumerating_fair (n : nat) : fair n (enumerating n).
Proof.
  intros s Hlen Hs. exists (rank s). unfold candidate. subst n.
  replace (rank s * String.length s)%nat
    with (rank s * String.length s + 0)%nat by lia.
  apply join_choices_enumerating; [exact Hs | lia |].
  cbn. apply Nat.div_1_r.
Qed.

(** ** One pass through the retry loop *)

(** Case analysis on everything the outside world answers in one pass. *)
Ltac unfold_methods :=
  unfold one_attempt, attempt_body, on_error, verify_server_login,
    update_password_to_database, store_password_history, send_alert_mail,
    send_mail, subscript, file_log, db_log, finally, try_except,
    try_except_class, call, emit, raise, ret, bind.

Ltac split_world :=
  repeat (cbn;
          match goal with
          | |- context [match ?x with _ => _ end] => is_var x; destruct x
          | |- context [dict_lookup ?d ?k] => destruct (dict_lookup d k)
          | |- context [is_AuthenticationException ?e] =>
              destruct (is_AuthenticationException e) eqn:?
          | |- context [?a <? ?b] => destruct (a <? b) eqn:?
          end);
  cbn.

(** What a pass appends to the result lists, by the way it ends. *)
Lemma one_attempt_appended (self : Rotation) (w : Attempt)
    (server new_password : string) (attempt : Z) :
  match one_attempt self w server new_password attempt with
  | (t, Ret Break) => appended t = [server]
  | (t, Ret Next) =>
      appended t = if attempt <? max_attempts self then [] else [server]
  | (t, Raise e) =>
      template (alert w) = Some e /\ (attempt <? max_attempts self) = true
  | (t, Diverge) => False
  end.
Proof.
  destruct self as [pl m old pw], w as [d c ch cn en ir ih [tp sm]].
  unfold_methods. cbn [max_attempts old_passwords new_password_generated
    decrypt_stored connect_stored change_command connect_new encrypt_new
    insert_root insert_history alert template smtp].
  split_world; auto.
Qed.

(** ** The retry loop *)

Lemma for_attempts_cons (self : Rotation) (env : Z -> Attempt)
    (server new_password : string) (attempt : Z) (rest : list Z) :
  for_attempts self env server new_password (attempt :: rest) =
  match one_attempt self (env attempt) server new_password attempt with
  | (t, Ret Break) => (t, Ret tt)
  | (t, Ret Next) =>
      (t ++ fst (for_attempts self env server new_password rest),
       snd (for_attempts self env server new_password rest))
  | (t, Raise e) => (t, Raise e)
  | (t, Diverge) => (t, Diverge)
  end.
Proof.
  cbn [for_attempts]. unfold bind.
  destruct (one_attempt _ _ _ _ _) as [t [[|]|e|]]; try reflexivity.
  - unfold ret. now rewrite app_nil_r.
  - now destruct (for_attempts _ _ _ _ rest).
Qed.

(** With at least one pass ahead and readable alert templates, the loop
    returns and appends the host exactly once. *)
Lemma for_attempts_appends_once (self : Rotation) (env : Z -> Attempt)
    (server new_password : string) :
  (forall a, template (alert (env a)) = None) ->
  forall (n : nat) (lo : Z),
    Z.of_nat (S n) = max_attempts self + 1 - lo ->
    snd (for_attempts self env server new_password
           (range lo (max_attempts self + 1))) = Ret tt /\
    appended (fst (for_attempts self env server new_password
                     (range lo (max_attempts self + 1)))) = [server].
Proof.
  intros Htpl. induction n as [|n IH]; intros lo Hn.
  - rewrite range_cons by lia. rewrite for_attempts_cons.
    pose proof (one_attempt_appended self (env lo) server new_password lo) as H.
    destruct (one_attempt _ _ _ _ _) as [t [[|]|e|]]; cbn [fst snd].
    + auto.
    + rewrite range_nil by lia. cbn. rewrite app_nil_r.
      replace (lo <? max_attempts self) with false in H
        by (symmetry; apply Z.ltb_ge; lia).
      auto.
    + destruct H as [H _]. rewrite Htpl in H. discriminate.
    + contradiction.
  - rewrite range_cons by lia. rewrite for_attempts_cons.
    pose proof (one_attempt_appended self (env lo) server new_password lo) as H.
    destruct (one_attempt _ _ _ _ _) as [t [[|]|e|]]; cbn [fst snd].
    + auto.
    + replace (lo <? max_attempts self) with true in H
        by (symmetry; apply Z.ltb_lt; lia).
      destruct (IH (lo + 1)) as [Hr Ha]; [lia|].
      rewrite appended_app, H, Ha. auto.
    + destruct H as [H _]. rewrite Htpl in H. discriminate.
    + contradiction.
Qed.

Lemma set_root_password_appends_once (self : Rotation) (env : Z -> Attempt)
    (server new_password : string) :
  1 <= max_attempts self ->
  (forall a, template (alert (env a)) = None) ->
  snd (set_root_password self env server new_password) = Ret tt /\
  appended (fst (set_root_password self env server new_password)) = [server].
Proof.
  intros Hm Htpl. unfold set_root_password.
  apply (for_attempts_appends_once self env server new_password Htpl
           (Z.to_nat (max_attempts self) - 1) 1).
  lia.
Qed.

(** ** Threads and their interleavings *)

Lemma pop_permutation {A} (i : nat) (threads threads' : list (list A)) (ev : A) :
  pop i threads = Some (ev, threads') ->
  Permutation (List.concat threads) (ev :: List.concat threads').
Proof.
  revert i threads'. induction threads as [|t others IH]; intros i threads' H.
  - destruct i; discriminate.
  - destruct i as [|j].
    + destruct t as [|e t]; cbn in H; [discriminate|].
      injection H as <- <-. reflexivity.
    + cbn in H. destruct (pop j others) as [[e others']|] eqn:E.
      * assert (ev = e /\ threads' = t :: others') as [-> ->].
        { destruct t; injection H as <- <-; auto. }
        cbn. apply IH in E.
        rewrite E. symmetry. apply Permutation_middle.
      * destruct t; discriminate.
Qed.

Lemma interleave_permutation {A} (schedule : list nat) (threads : list (list A)) :
  Permutation (interleave schedule threads) (List.concat threads).
Proof.
  revert threads. induction schedule as [|i schedule IH]; intros threads; cbn.
  - reflexivity.
  - destruct (pop i threads) as [[ev threads']|] eqn:E.
    + apply pop_permutation in E. rewrite E. constructor. apply IH.
    + apply IH.
Qed.

Lemma appended_concat (threads : list Trace) :
  appended (List.concat threads) = flat_map appended threads.
Proof.
  induction threads as [|t threads IH]; cbn; [reflexivity|].
  now rewrite appended_app, IH.
Qed.

Lemma spawn_appended (self : Rotation) (envs : nat -> Z -> Attempt)
    (hostnames_list : list string) :
  1 <= max_attempts self ->
  (forall i a, template (alert (envs i a)) = None) ->
  forall i, flat_map appended (spawn self envs i hostnames_list) = hostnames_list.
Proof.
  intros Hm Htpl. induction hostnames_list as [|host rest IH]; intros i; cbn.
  - reflexivity.
  - destruct (set_root_password_appends_once self (envs i) host
                (new_password_generated self) Hm (Htpl i)) as [_ Ha].
    rewrite Ha, IH. reflexivity.
Qed.

Lemma send_mail_trace (mail : Mail) (l : Lists) :
  successes (fst (send_mail mail l)) = [] /\
  failures (fst (send_mail mail l)) = [] /\
  count is_history_read (fst (send_mail mail l)) = 0%nat /\
  Forall (fun ev => secret_of ev = None) (fst (send_mail mail l)).
Proof.
  destruct mail as [[e|] [e'|]]; cbn; repeat split; repeat constructor.
Qed.

Lemma run_trace (self : Rotation) (hostnames_list : list string)
    (envs : nat -> Z -> Attempt) (schedule : list nat) (report : Mail) :
  fst (run self hostnames_list envs schedule report) =
  interleave schedule (spawn self envs 0 hostnames_list) ++
  fst (send_mail report
         (lists_after (interleave schedule (spawn self envs 0 hostnames_list)))).
Proof.
  unfold run, bind.
  now destruct (send_mail _ _).
Qed.

Lemma run_lists (self : Rotation) (hostnames_list : list string)
    (envs : nat -> Z -> Attempt) (schedule : list nat) (report : Mail) :
  lists_after (fst (run self hostnames_list envs schedule report)) =
  lists_after (interleave schedule (spawn self envs 0 hostnames_list)).
Proof.
  rewrite run_trace.
  set (workers := interleave schedule (spawn self envs 0 hostnames_list)).
  destruct (send_mail_trace report (lists_after workers)) as [Hs [Hf _]].
  set (mail_trace := fst (send_mail report (lists_after workers))) in *.
  now rewrite !lists_after_spec, successes_app, failures_app, Hs, Hf, !app_nil_r.
Qed.

(** ** Passes of particular kinds *)

Ltac open_world self w :=
  destruct self as [pl m old pw'], w as [d c ch cn en ir ih [tp sm]];
  unfold raises_in_body, verified, reaches_verification, is_none;
  unfold_methods;
  cbn [max_attempts old_passwords new_password_generated
       decrypt_stored connect_stored change_command connect_new encrypt_new
       insert_root insert_history alert template smtp].

(** The body of a pass sends no alert, waits no backoff and closes no
    session; it raises exactly in the cases [raises_in_body] lists, and
    otherwise appends the host to one list and leaves the loop. *)
Lemma attempt_body_flow (self : Rotation) (w : Attempt)
    (server new_password : string) :
  let body := attempt_body self w server new_password in
  tries (fst body) = 0%nat /\ retries (fst body) = 0%nat /\
  alerts (fst body) = 0%nat /\
  if raises_in_body self w server then
    (exists e, snd body = Raise e) /\
    successes (fst body) = [] /\ failures (fst body) = []
  else
    snd body = Ret Break /\
    if verified self w server
    then successes (fst body) = [server] /\ failures (fst body) = []
    else successes (fst body) = [] /\ failures (fst body) = [server].
Proof.
  cbv zeta. open_world self w. split_world; eauto 10.
Qed.

(** The handler: alert and backoff while attempts remain, the failure
    list otherwise.  Only an unreadable alert template makes it raise. *)
Lemma on_error_flow (self : Rotation) (w : Attempt) (server : string)
    (attempt : Z) (error : Exn) :
  let handler := on_error self w server attempt error in
  tries (fst handler) = 0%nat /\ successes (fst handler) = [] /\
  if attempt <? max_attempts self then
    failures (fst handler) = [] /\
    match template (alert w) with
    | None => snd handler = Ret Next /\
              retries (fst handler) = 1%nat /\ alerts (fst handler) = 1%nat
    | Some e' => snd handler = Raise e' /\
                 retries (fst handler) = 0%nat /\ alerts (fst handler) = 0%nat
    end
  else
    snd handler = Ret Next /\ failures (fst handler) = [server] /\
    retries (fst handler) = 0%nat /\ alerts (fst handler) = 0%nat.
Proof.
  cbv zeta. open_world self w. split_world; auto 10.
Qed.

Lemma one_attempt_unfold (self : Rotation) (w : Attempt)
    (server new_password : string) (attempt : Z) :
  one_attempt self w server new_password attempt =
  match attempt_body self w server new_password with
  | (t, Raise e) =>
      (t ++ fst (on_error self w server attempt e) ++ [SshClose],
       snd (on_error self w server attempt e))
  | (t, r) => (t ++ [SshClose], r)
  end.
Proof.
  unfold one_attempt, finally, try_except.
  destruct (attempt_body _ _ _ _) as [t [fl|e|]]; cbn [fst snd]; try reflexivity.
  destruct (on_error _ _ _ _ _) as [t' r']. cbn [fst snd].
  now rewrite <- app_assoc.
Qed.

(** A pass leaves the loop exactly when its body does not raise; when the
    body raises, the handler retries (alert, backoff) if attempts remain
    and gives the host up otherwise. *)
Lemma one_attempt_flow (self : Rotation) (w : Attempt)
    (server new_password : string) (attempt : Z) :
  let pass := one_attempt self w server new_password attempt in
  tries (fst pass) = 1%nat /\
  if raises_in_body self w server then
    successes (fst pass) = [] /\
    if attempt <? max_attempts self then
      failures (fst pass) = [] /\
      match template (alert w) with
      | None => snd pass = Ret Next /\
                retries (fst pass) = 1%nat /\ alerts (fst pass) = 1%nat
      | Some e' => snd pass = Raise e' /\
                   retries (fst pass) = 0%nat /\ alerts (fst pass) = 0%nat
      end
    else
      snd pass = Ret Next /\ failures (fst pass) = [server] /\
      retries (fst pass) = 0%nat /\ alerts (fst pass) = 0%nat
  else
    snd pass = Ret Break /\ retries (fst pass) = 0%nat /\ alerts (fst pass) = 0%nat /\
    if verified self w server
    then successes (fst pass) = [server] /\ failures (fst pass) = []
    else successes (fst pass) = [] /\ failures (fst pass) = [server].
Proof.
  cbv zeta. rewrite one_attempt_unfold.
  destruct (attempt_body_flow self w server new_password) as (Ht & Hr & Ha & Hb).
  destruct (attempt_body self w server new_password) as [t r]. cbn [fst snd] in *.
  destruct (raises_in_body self w server).
  - destruct Hb as ([e ->] & Hs & Hf).
    destruct (on_error_flow self w server attempt e) as (Ht' & Hs' & Hh).
    cbn [fst snd]. unfold tries, retries, alerts in *.
    rewrite !count_app, !successes_app, !failures_app, Ht, Ht', Hs, Hs', Hf, Hr, Ha.
    split; [reflexivity|]. split; [reflexivity|].
    destruct (attempt <? max_attempts self).
    + destruct Hh as [-> Hh]. split; [reflexivity|].
      destruct (template (alert w)); destruct Hh as (-> & -> & ->); auto.
    + destruct Hh as (-> & -> & -> & ->). auto.
  - destruct Hb as [-> Hb]. cbn [fst snd]. unfold tries, retries, alerts in *.
    rewrite !count_app, !successes_app, !failures_app, Ht, Hr, Ha.
    repeat (split; [reflexivity|]).
    destruct (verified self w server); destruct Hb as [-> ->]; auto.
Qed.

Lemma connect_failure_raises (self : Rotation) (w : Attempt) (server : string) :
  connect_stored w <> None -> raises_in_body self w server = true.
Proof.
  unfold raises_in_body, reaches_verification.
  destruct (connect_stored w); [|congruence].
  intros _. cbn. now rewrite andb_false_r.
Qed.

(** The loop over passes that all raise in their body: every pass but the
    last sends one alert and waits one backoff, the last one gives the
    host up. *)
Lemma for_attempts_always_raising (self : Rotation) (env : Z -> Attempt)
    (server new_password : string) :
  forall (n : nat) (lo : Z),
    Z.of_nat (S n) = max_attempts self + 1 - lo ->
    (forall a, lo <= a <= max_attempts self ->
               raises_in_body self (env a) server = true) ->
    (forall a, lo <= a < max_attempts self -> template (alert (env a)) = None) ->
    let r := for_attempts self env server new_password
               (range lo (max_attempts self + 1)) in
    snd r = Ret tt /\ tries (fst r) = S n /\ alerts (fst r) = n /\
    retries (fst r) = n /\ successes (fst r) = [] /\ failures (fst r) = [server].
Proof.
  induction n as [|n IH]; intros lo Hn Hraise Htpl; cbv zeta;
    rewrite range_cons by lia; rewrite for_attempts_cons;
    pose proof (one_attempt_flow self (env lo) server new_password lo) as H;
    cbv zeta in H; rewrite Hraise in H by lia;
    destruct H as (Ht & Hs & H).
  - replace (lo <? max_attempts self) with false in H
      by (symmetry; apply Z.ltb_ge; lia).
    destruct H as (Hr & Hf & Hb & Ha).
    destruct (one_attempt _ _ _ _ _) as [t r]. cbn [fst snd] in *. subst r.
    rewrite range_nil by lia. cbn [for_attempts ret fst snd].
    rewrite app_nil_r. auto 10.
  - replace (lo <? max_attempts self) with true in H
      by (symmetry; apply Z.ltb_lt; lia).
    rewrite Htpl in H by lia. destruct H as (Hf & Hr & Hb & Ha).
    destruct (one_attempt _ _ _ _ _) as [t r]. cbn [fst snd] in *. subst r.
    destruct (IH (lo + 1)) as (Hr' & Ht' & Ha' & Hb' & Hs' & Hf').
    { lia. }
    { intros a Hle. apply Hraise. lia. }
    { intros a Hle. apply Htpl. lia. }
    cbn [fst snd]. unfold tries, alerts, retries in *.
    rewrite !count_app, successes_app, failures_app.
    rewrite Ht, Ht', Ha, Ha', Hb, Hb', Hs, Hs', Hf, Hf'. auto 10.
Qed.

(** A pass whose body does not raise is the last one, wherever in the loop
    it comes: the passes after it are not made. *)
Lemma for_attempts_ends_when_body_returns (self : Rotation) (env : Z -> Attempt)
    (server new_password : string) (attempt : Z) (rest : list Z) :
  raises_in_body self (env attempt) server = false ->
  let r := for_attempts self env server new_password (attempt :: rest) in
  r = (fst (one_attempt self (env attempt) server new_password attempt), Ret tt) /\
  tries (fst r) = 1%nat /\ retries (fst r) = 0%nat /\ alerts (fst r) = 0%nat /\
  if verified self (env attempt) server
  then successes (fst r) = [server] /\ failures (fst r) = []
  else successes (fst r) = [] /\ failures (fst r) = [server].
Proof.
  intros Hbody. cbv zeta. rewrite for_attempts_cons.
  pose proof (one_attempt_flow self (env attempt) server new_password attempt) as H.
  cbv zeta in H. rewrite Hbody in H.
  destruct H as (Ht & Hr & Hb & Ha & Hl).
  destruct (one_attempt _ _ _ _ _) as [t r]. cbn [fst snd] in *. subst r.
  cbn [fst snd]. auto 10.
Qed.

(** The loop up to pass [k], when every pass before it raises in its body
    and finds the alert template: what remains is the loop from [k] on. *)
Lemma for_attempts_reaches_pass (self : Rotation) (env : Z -> Attempt)
    (server new_password : string) (k : Z) :
  k <= max_attempts self ->
  forall (n : nat) (lo : Z),
    Z.of_nat n = k - lo ->
    (forall a, lo <= a < k -> raises_in_body self (env a) server = true) ->
    (forall a, lo <= a < k -> template (alert (env a)) = None) ->
    exists before,
      tries before = n /\ alerts before = n /\ retries before = n /\
      successes before = [] /\ failures before = [] /\
      for_attempts self env server new_password (range lo (max_attempts self + 1))
      = (before ++ fst (for_attempts self env server new_password
                          (range k (max_attempts self + 1))),
         snd (for_attempts self env server new_password
                (range k (max_attempts self + 1)))).
Proof.
  intros Hk. induction n as [|n IH]; intros lo Hn Hraise Htpl.
  - replace lo with k by lia. exists []. cbn [app].
    repeat split. now destruct (for_attempts _ _ _ _ _).
  - rewrite range_cons by lia. rewrite for_attempts_cons.
    pose proof (one_attempt_flow self (env lo) server new_password lo) as H.
    cbv zeta in H. rewrite Hraise in H by lia.
    replace (lo <? max_attempts self) with true in H
      by (symmetry; apply Z.ltb_lt; lia).
    rewrite Htpl in H by lia. destruct H as (Ht & Hs & Hf & Hr & Hb & Ha).
    destruct (one_attempt _ _ _ _ _) as [t r]. cbn [fst snd] in *. subst r.
    destruct (IH (lo + 1)) as (before & Ht' & Ha' & Hb' & Hs' & Hf' & Heq).
    { lia. }
    { intros a Hle. apply Hraise. lia. }
    { intros a Hle. apply Htpl. lia. }
    exists (t ++ before). unfold tries, alerts, retries in *.
    rewrite !count_app, successes_app, failures_app, Ht, Ht', Ha, Ha', Hb, Hb',
      Hs, Hs', Hf, Hf', Heq.
    cbn [fst snd app]. rewrite <- app_assoc. auto 10.
Qed.

(** A pass that verifies and can encrypt the secret logs the failure of
    either insert to the file log. *)
Lemma one_attempt_logs_insert_failures (self : Rotation) (w : Attempt)
    (server new_password : string) (attempt : Z) :
  verified self w server = true ->
  encrypt_new w = None ->
  (forall e, insert_root w = Some e ->
     In (FileLog (MsgUpdateFailed server e) "NA")
        (fst (one_attempt self w server new_password attempt))) /\
  (forall e, insert_history w = Some e ->
     In (FileLog (MsgHistoryInsertFailed e) "NA")
        (fst (one_attempt self w server new_password attempt))).
Proof.
  open_world self w. split_world; try discriminate; intros _ _; split;
    intros e' He'; try discriminate; injection He' as ->; cbn; auto 20.
Qed.

(** ** What the workers of a batch read and carry *)

Ltac batch_events :=
  repeat match goal with
         | |- Forall _ [] => constructor
         | |- Forall _ (_ :: _) => constructor
         | |- batch_event _ _ = true => cbn; try apply String.eqb_refl; reflexivity
         end.

Lemma attempt_body_batch (self : Rotation) (w : Attempt) (server : string) :
  Forall (fun ev => batch_event (new_password_generated self) ev = true)
         (fst (attempt_body self w server (new_password_generated self))).
Proof.
  open_world self w. split_world; batch_events.
Qed.

Lemma on_error_batch (self : Rotation) (w : Attempt) (server : string)
    (attempt : Z) (error : Exn) :
  Forall (fun ev => batch_event (new_password_generated self) ev = true)
         (fst (on_error self w server attempt error)).
Proof.
  open_world self w. split_world; batch_events.
Qed.

Lemma for_attempts_batch (self : Rotation) (env : Z -> Attempt) (server : string)
    (attempts : list Z) :
  Forall (fun ev => batch_event (new_password_generated self) ev = true)
         (fst (for_attempts self env server (new_password_generated self) attempts)).
Proof.
  induction attempts as [|attempt rest IH]; [constructor|].
  rewrite for_attempts_cons, one_attempt_unfold.
  pose proof (attempt_body_batch self (env attempt) server) as Hb.
  destruct (attempt_body _ _ _ _) as [t [fl|e|]]; cbn [fst snd] in *.
  - assert (Forall (fun ev => batch_event (new_password_generated self) ev = true)
                   (t ++ [SshClose])) as Hc
      by (apply Forall_app; split; [exact Hb | batch_events]).
    destruct fl; cbn [fst]; [exact Hc|].
    apply Forall_app; split; assumption.
  - pose proof (on_error_batch self (env attempt) server attempt e) as Hh.
    assert (Forall (fun ev => batch_event (new_password_generated self) ev = true)
                   (t ++ fst (on_error self (env attempt) server attempt e)
                      ++ [SshClose])) as Hc.
    { apply Forall_app; split; [exact Hb|].
      apply Forall_app; split; [exact Hh | batch_events]. }
    destruct (snd (on_error _ _ _ _ _)) as [[|]|e'|]; cbn [fst]; try exact Hc.
    apply Forall_app; split; assumption.
  - apply Forall_app; split; [exact Hb | batch_events].
Qed.

Lemma spawn_batch (self : Rotation) (envs : nat -> Z -> Attempt)
    (hostnames_list : list string) :
  forall i,
    Forall (Forall (fun ev => batch_event (new_password_generated self) ev = true))
           (spawn self envs i hostnames_list).
Proof.
  induction hostnames_list as [|host rest IH]; intros i; cbn; constructor.
  - apply for_attempts_batch.
  - apply IH.
Qed.

Lemma run_batch (self : Rotation) (hostnames_list : list string)
    (envs : nat -> Z -> Attempt) (schedule : list nat) (report : Mail) :
  Forall (fun ev => batch_event (new_password_generated self) ev = true)
         (fst (run self hostnames_list envs schedule report)).
Proof.
  rewrite run_trace. apply Forall_app. split.
  - apply (Permutation_Forall
             (Permutation_sym (interleave_permutation schedule _))).
    apply Forall_concat. apply spawn_batch.
  - destruct report as [[e|] [e'|]]; cbn; batch_events.
Qed.

Lemma batch_event_spec (secret : string) (t : Trace) :
  Forall (fun ev => batch_event secret ev = true) t ->
  count is_history_read t = 0%nat /\
  (forall ev p, In ev t -> secret_of ev = Some p -> p = secret).
Proof.
  intros H. split.
  - induction H as [|ev t Hev _ IH]; [reflexivity|].
    unfold count in *. cbn. unfold batch_event in Hev.
    apply andb_prop in Hev. destruct Hev as [Hev _].
    destruct (is_history_read ev); [discriminate | exact IH].
  - intros ev p Hin Hp. rewrite Forall_forall in H. specialize (H ev Hin).
    unfold batch_event in H. rewrite Hp in H.
    apply andb_prop in H. destruct H as [_ H]. now apply String.eqb_eq in H.
Qed.

(** ** Construction *)

Lemma get_old_password_trace (answer : Answer (list (string * string))) :
  (exists d, snd (get_old_password answer) = Ret d) /\
  count is_history_read (fst (get_old_password answer)) = 0%nat /\
  Forall (fun ev => is_worker_event ev = false) (fst (get_old_password answer)).
Proof.
  destruct answer as [rows|e]; cbn; repeat split; eauto; repeat constructor.
Qed.

(** When [__init__] returns, the history was read, once, as the last thing
    the construction did to the outside world, and the secret is what the
    generator returned for that snapshot. *)
Lemma init_returns (fuel : nat) (s : Startup) (t0 : Trace) (rotation_obj : Rotation) :
  __init__ fuel s = (t0, Ret rotation_obj) ->
  t0 = fst (get_old_password (old_password_rows s)) ++ [SelectHistory] /\
  max_attempts rotation_obj = cfg_max_attempts s /\
  exists snapshot,
    history_rows s = Gives snapshot /\
    generate fuel (source s) (cfg_password_length s) (Some snapshot)
    = Ret (new_password_generated rotation_obj).
Proof.
  unfold __init__, generate_random_password, get_password_history.
  destruct (get_old_password_trace (old_password_rows s)) as [[d Hd] _].
  destruct (get_old_password (old_password_rows s)) as [t r].
  cbn [snd] in Hd. subst r.
  destruct (history_rows s) as [snapshot|e]; cbn.
  - destruct (generate fuel (source s) (cfg_password_length s) (Some snapshot))
      as [pw|e|] eqn:E; cbn; intros H; try discriminate.
    injection H as <- <-. cbn. rewrite ?app_nil_r. eauto.
  - destruct fuel; cbn; discriminate.
Qed.

(** ** The relay does not steer the rotation *)

Lemma pop_map {A B} (f : A -> B) (i : nat) (threads : list (list A)) :
  pop i (map (map f) threads) =
  match pop i threads with
  | Some (ev, threads') => Some (f ev, map (map f) threads')
  | None => None
  end.
Proof.
  revert i. induction threads as [|t others IH]; intros i.
  - destruct i; reflexivity.
  - destruct i as [|j].
    + destruct t; reflexivity.
    + destruct t as [|a t]; cbn; rewrite IH;
        destruct (pop j others) as [[ev others']|]; reflexivity.
Qed.

Lemma interleave_map {A B} (f : A -> B) (schedule : list nat)
    (threads : list (list A)) :
  map f (interleave schedule threads) = interleave schedule (map (map f) threads).
Proof.
  revert threads. induction schedule as [|i schedule IH]; intros threads; cbn.
  - now rewrite concat_map.
  - rewrite pop_map. destruct (pop i threads) as [[ev threads']|]; cbn.
    + now rewrite IH.
    + apply IH.
Qed.

(** Traces that agree up to the text of file-log records lead to the same
    result lists. *)
Lemma shadow_lists (t t' : Trace) :
  map shadow t = map shadow t' -> lists_after t = lists_after t'.
Proof.
  intros H. rewrite !lists_after_spec.
  assert (successes t = successes t' /\ failures t = failures t') as [-> ->];
    [|reflexivity].
  revert t' H. induction t as [|ev t IH]; intros [|ev' t'] H; try discriminate.
  - auto.
  - cbn in H. injection H as Hev Ht. destruct (IH t' Ht) as [Hs Hf].
    destruct ev, ev'; cbn in Hev; try discriminate Hev;
      try (injection Hev; intros; subst);
      unfold successes, failures in *; cbn; rewrite ?Hs, ?Hf; auto.
Qed.

Lemma send_alert_mail_relay (answer : option Exn) (mail : Mail)
    (hostname : string) (error_msg : Exn) :
  snd (send_alert_mail (with_relay answer mail) hostname error_msg)
  = snd (send_alert_mail mail hostname error_msg) /\
  map shadow (fst (send_alert_mail (with_relay answer mail) hostname error_msg))
  = map shadow (fst (send_alert_mail mail hostname error_msg)).
Proof.
  destruct mail as [[e|] [e'|]], answer as [e''|], hostname; split; reflexivity.
Qed.

Lemma on_error_relay (self : Rotation) (answers : Z -> option Exn)
    (env : Z -> Attempt) (server : string) (attempt : Z) (error : Exn) :
  snd (on_error self (with_alert_relay answers env attempt) server attempt error)
  = snd (on_error self (env attempt) server attempt error) /\
  map shadow
    (fst (on_error self (with_alert_relay answers env attempt) server attempt error))
  = map shadow (fst (on_error self (env attempt) server attempt error)).
Proof.
  unfold on_error, with_alert_relay. cbn [alert].
  destruct (attempt <? max_attempts self); [|split; reflexivity].
  destruct (send_alert_mail_relay (answers attempt) (alert (env attempt))
              server error) as [Hs Ht].
  destruct (send_alert_mail (with_relay _ _) _ _) as [t1 r1],
           (send_alert_mail (alert (env attempt)) _ _) as [t2 r2].
  cbn [fst snd] in Hs, Ht. subst r2.
  destruct r1 as [[]|e|], server; cbn; rewrite ?map_app, ?Ht; split; reflexivity.
Qed.

Lemma for_attempts_relay (self : Rotation) (answers : Z -> option Exn)
    (env : Z -> Attempt) (server new_password : string) (attempts : list Z) :
  snd (for_attempts self (with_alert_relay answers env) server new_password attempts)
  = snd (for_attempts self env server new_password attempts) /\
  map shadow
    (fst (for_attempts self (with_alert_relay answers env) server new_password
            attempts))
  = map shadow (fst (for_attempts self env server new_password attempts)).
Proof.
  induction attempts as [|attempt rest [IHs IHt]]; [split; reflexivity|].
  rewrite !for_attempts_cons, !one_attempt_unfold.
  change (attempt_body self (with_alert_relay answers env attempt) server new_password)
    with (attempt_body self (env attempt) server new_password).
  destruct (attempt_body self (env attempt) server new_password) as [t [fl|e|]].
  - destruct fl; cbn [fst snd]; [split; reflexivity|].
    rewrite !map_app, IHs, IHt. split; reflexivity.
  - destruct (on_error_relay self answers env server attempt e) as [Hs Ht].
    rewrite Hs.
    destruct (snd (on_error self (env attempt) server attempt e)) as [[|]|e'|];
      cbn [fst snd]; rewrite !map_app, ?Ht, ?IHs, ?IHt; split; reflexivity.
  - split; reflexivity.
Qed.

Lemma spawn_relay (self : Rotation) (answers : nat -> Z -> option Exn)
    (envs : nat -> Z -> Attempt) (hostnames_list : list string) :
  forall i,
    map (map shadow)
        (spawn self (fun j => with_alert_relay (answers j) (envs j)) i hostnames_list)
    = map (map shadow) (spawn self envs i hostnames_list).
Proof.
  induction hostnames_list as [|host rest IH]; intros i; cbn [spawn map].
  - reflexivity.
  - rewrite IH. f_equal. unfold set_root_password.
    apply for_attempts_relay.
Qed.

Lemma send_mail_relay (answer : option Exn) (mail : Mail) (l : Lists) :
  snd (send_mail (with_relay answer mail) l) = snd (send_mail mail l) /\
  map shadow (fst (send_mail (with_relay answer mail) l))
  = map shadow (fst (send_mail mail l)).
Proof.
  destruct mail as [[e|] [e'|]], answer as [e''|]; split; reflexivity.
Qed.

(* ================================================================== *)
(** * The properties of the specification *)

(** ** The coordinator partitions the hosts *)

(** C1, as stated, fails on three inputs: a host listed twice is appended
    twice; with [max_attempts = 0] the loop body never runs and the host
    reaches neither list; and when the alert template cannot be opened the
    exception leaves the handler, the thread ends, and the host reaches
    neither list. *)
Lemma run_partition_counterexamples :
  lists_after (fst (run (sample_rotation 3) ["alpha"; "alpha"]
                      (fun _ _ => world_ok) [] quiet_mail))
  = {| password_change_success_host_list := ["alpha"; "alpha"];
       password_change_fail_host_list := [] |}
  /\ lists_after (fst (run (sample_rotation 0) ["alpha"]
                         (fun _ _ => world_ok) [] quiet_mail))
     = {| password_change_success_host_list := [];
          password_change_fail_host_list := [] |}
  /\ lists_after (fst (run (sample_rotation 3) ["alpha"]
                         (fun _ _ => world_unreachable_no_template) [] quiet_mail))
     = {| password_change_success_host_list := [];
          password_change_fail_host_list := [] |}.
Proof. repeat split; vm_compute; reflexivity. Qed.

(** C1 (amended): when no host is listed twice, at least one attempt is
    configured and the alert template can be read, then after [run], for
    every schedule of the threads and every outcome of the outside calls,
    the success list and the failure list together are a rearrangement of
    the input host list: every host is in exactly one of them, exactly
    once, and nothing else is. *)
Theorem run_partitions_hosts (self : Rotation) (hostnames_list : list string)
    (envs : nat -> Z -> Attempt) (schedule : list nat) (report : Mail) :
  NoDup hostnames_list ->
  1 <= max_attempts self ->
  (forall i a, template (alert (envs i a)) = None) ->
  let l := lists_after (fst (run self hostnames_list envs schedule report)) in
  let success := password_change_success_host_list l in
  let fail := password_change_fail_host_list l in
  Permutation (success ++ fail) hostnames_list /\
  NoDup (success ++ fail) /\
  (forall h, In h hostnames_list <-> In h success \/ In h fail) /\
  (forall h, In h success -> In h fail -> False).
Proof.
  intros Hnd Hm Htpl. cbv zeta. rewrite run_lists, lists_after_spec. cbn [
    password_change_success_host_list password_change_fail_host_list].
  set (t := interleave schedule (spawn self envs 0 hostnames_list)).
  assert (Permutation (successes t ++ failures t) hostnames_list) as HP.
  { rewrite appended_split. unfold t, appended.
    rewrite (Permutation_flat_map _ (interleave_permutation schedule _)).
    fold appended. rewrite appended_concat.
    now rewrite (spawn_appended self envs hostnames_list Hm Htpl 0). }
  assert (NoDup (successes t ++ failures t)) as HN.
  { apply (Permutation_NoDup (Permutation_sym HP) Hnd). }
  repeat split.
  - exact HP.
  - exact HN.
  - intros H. apply in_app_or. apply (Permutation_in _ (Permutation_sym HP) H).
  - intros H. apply (Permutation_in _ HP). now apply in_or_app.
  - intros h Hs Hf. revert HN Hs Hf. generalize (successes t) (failures t).
    intros s. induction s as [|x s IH]; intros f HN Hs Hf; [contradiction|].
    cbn in HN. inversion HN as [|? ? Hx HN']; subst.
    destruct Hs as [->|Hs].
    + apply Hx. apply in_or_app. now right.
    + exact (IH f HN' Hs Hf).
Qed.

Lemma run_partitions_hosts_witness :
  let l := lists_after (fst (run (sample_rotation 3) ["alpha"; "beta"]
                               sample_envs [1; 0; 1]%nat quiet_mail)) in
  let success := password_change_success_host_list l in
  let fail := password_change_fail_host_list l in
  Permutation (success ++ fail) ["alpha"; "beta"] /\
  NoDup (success ++ fail) /\
  (forall h, In h ["alpha"; "beta"] <-> In h success \/ In h fail) /\
  (forall h, In h success -> In h fail -> False).
Proof.
  apply run_partitions_hosts.
  - constructor.
    + cbn. intros [H|[]]. discriminate H.
    + constructor; [intros [] | constructor].
  - cbn. lia.
  - intros [|i] a; reflexivity.
Defined.

(** ** The worker *)

(** C2, as stated, fails on two inputs.  When the alert template cannot be
    opened, [send_alert_mail] raises inside the handler of the first pass:
    the worker is ended after one try, no alert was sent and the host is
    on no list.  With [max_attempts = 0] the loop body never runs. *)
Lemma unreachable_host_counterexamples :
  set_root_password (sample_rotation 3) (fun _ => world_unreachable_no_template)
    "alpha" "Xk3$Qz7!mN2@"
  = ([SshConnectStored "alpha";
      FileLog (MsgRetrying "alpha" 1 3 OSError) "alpha";
      DbLog (MsgRetrying "alpha" 1 3 OSError) "alpha";
      SshClose],
     Raise FileNotFoundError) /\
  set_root_password (sample_rotation 0) (fun _ => world_unreachable)
    "alpha" "Xk3$Qz7!mN2@"
  = ([], Ret tt).
Proof. split; reflexivity. Qed.

(** C2 (amended): with at least one attempt configured and an alert
    template that can be read, a host whose login with the stored
    credential fails in every pass goes through exactly [max_attempts]
    passes, is then appended to the failure list, once, and to no other
    list, and sends exactly [max_attempts - 1] alerts, one with each
    backoff and none in the last pass. *)
Theorem unreachable_host_exhausts_attempts (self : Rotation) (env : Z -> Attempt)
    (server new_password : string) :
  1 <= max_attempts self ->
  (forall a, 1 <= a <= max_attempts self -> connect_stored (env a) <> None) ->
  (forall a, 1 <= a < max_attempts self -> template (alert (env a)) = None) ->
  let r := set_root_password self env server new_password in
  snd r = Ret tt /\
  Z.of_nat (tries (fst r)) = max_attempts self /\
  Z.of_nat (alerts (fst r)) = max_attempts self - 1 /\
  Z.of_nat (retries (fst r)) = max_attempts self - 1 /\
  successes (fst r) = [] /\
  failures (fst r) = [server].
Proof.
  intros Hm Hconn Htpl. cbv zeta. unfold set_root_password.
  destruct (for_attempts_always_raising self env server new_password
              (Z.to_nat (max_attempts self) - 1) 1) as (Hr & Ht & Ha & Hb & Hs & Hf).
  - lia.
  - intros a Ha. apply connect_failure_raises. now apply Hconn.
  - exact Htpl.
  - rewrite Hr, Ht, Ha, Hb, Hs, Hf. repeat split; lia.
Qed.

Lemma unreachable_host_exhausts_attempts_witness :
  let r := set_root_password (sample_rotation 3) (fun _ => world_unreachable)
             "alpha" "Xk3$Qz7!mN2@" in
  snd r = Ret tt /\
  Z.of_nat (tries (fst r)) = 3 /\
  Z.of_nat (alerts (fst r)) = 3 - 1 /\
  Z.of_nat (retries (fst r)) = 3 - 1 /\
  successes (fst r) = [] /\
  failures (fst r) = ["alpha"].
Proof.
  apply (unreachable_host_exhausts_attempts (sample_rotation 3)
           (fun _ => world_unreachable) "alpha" "Xk3$Qz7!mN2@").
  - cbn. lia.
  - intros a _. cbn. discriminate.
  - intros a _. reflexivity.
Defined.

(** The first pass of the worker, when at least one attempt is configured. *)
Lemma set_root_password_first_pass (self : Rotation) (env : Z -> Attempt)
    (server new_password : string) :
  1 <= max_attempts self ->
  set_root_password self env server new_password =
  for_attempts self env server new_password (1 :: range 2 (max_attempts self + 1)).
Proof.
  intros Hm. unfold set_root_password. now rewrite range_cons by lia.
Qed.

(** C3: when the first pass gets through Connecting and ChangingCredential
    and the login with the new secret is refused, the worker stops there:
    the host is on the failure list, one pass was made, no backoff was
    waited and no alert sent. *)
Theorem rejected_secret_is_terminal (self : Rotation) (env : Z -> Attempt)
    (server new_password : string) :
  1 <= max_attempts self ->
  reaches_verification self (env 1) server = true ->
  connect_new (env 1) = Some AuthenticationException ->
  let r := set_root_password self env server new_password in
  snd r = Ret tt /\
  failures (fst r) = [server] /\ successes (fst r) = [] /\
  tries (fst r) = 1%nat /\ retries (fst r) = 0%nat /\ alerts (fst r) = 0%nat.
Proof.
  intros Hm Hreach Hnew. cbv zeta.
  rewrite set_root_password_first_pass by exact Hm.
  assert (raises_in_body self (env 1) server = false) as Hbody
    by (unfold raises_in_body; now rewrite Hreach, Hnew).
  assert (verified self (env 1) server = false) as Hver
    by (unfold verified; now rewrite Hreach, Hnew).
  destruct (for_attempts_ends_when_body_returns self env server new_password 1
              (range 2 (max_attempts self + 1)) Hbody) as (Hr & Ht & Hb & Ha & Hl).
  rewrite Hver in Hl. destruct Hl as [Hs Hf].
  rewrite Hr at 1. cbn [snd]. auto 10.
Qed.

Lemma rejected_secret_is_terminal_witness :
  let r := set_root_password (sample_rotation 3) (fun _ => world_rejected)
             "alpha" "Xk3$Qz7!mN2@" in
  snd r = Ret tt /\
  failures (fst r) = ["alpha"] /\ successes (fst r) = [] /\
  tries (fst r) = 1%nat /\ retries (fst r) = 0%nat /\ alerts (fst r) = 0%nat.
Proof.
  apply (rejected_secret_is_terminal (sample_rotation 3) (fun _ => world_rejected)
           "alpha" "Xk3$Qz7!mN2@").
  - cbn. lia.
  - reflexivity.
  - reflexivity.
Defined.



(** C7, as stated, fails: the secret is encrypted for storage before the
    guarded insert of [update_password_to_database], so when the public
    key cannot be loaded a host whose verification succeeded is sent to
    the retry handling, pass after pass, and ends on the failure list. *)
Lemma verified_host_encryption_failure :
  verified (sample_rotation 3) world_encrypt_fails "alpha" = true /\
  snd (set_root_password (sample_rotation 3) (fun _ => world_encrypt_fails)
         "alpha" "Xk3$Qz7!mN2@") = Ret tt /\
  lists_after (fst (set_root_password (sample_rotation 3)
                      (fun _ => world_encrypt_fails) "alpha" "Xk3$Qz7!mN2@"))
  = {| password_change_success_host_list := [];
       password_change_fail_host_list := ["alpha"] |} /\
  tries (fst (set_root_password (sample_rotation 3)
                (fun _ => world_encrypt_fails) "alpha" "Xk3$Qz7!mN2@")) = 3%nat /\
  retries (fst (set_root_password (sample_rotation 3)
                  (fun _ => world_encrypt_fails) "alpha" "Xk3$Qz7!mN2@")) = 2%nat.
Proof. repeat split. Qed.

(** C7 (amended): in whichever pass [k] the new secret is verified (the
    passes before it having been retried), when the secret can be
    encrypted for storage the host is appended to the success list
    whatever the two inserts answer: a failing insert into the credential
    table or into the history table is written to the file log, pass [k]
    is the last one (no retry follows: [k] passes, [k - 1] backoffs and
    alerts, all from before), and the failure list stays empty. *)
Theorem persistence_failure_keeps_success (self : Rotation) (env : Z -> Attempt)
    (server new_password : string) (k : Z) :
  1 <= k <= max_attempts self ->
  (forall a, 1 <= a < k -> raises_in_body self (env a) server = true) ->
  (forall a, 1 <= a < k -> template (alert (env a)) = None) ->
  verified self (env k) server = true ->
  encrypt_new (env k) = None ->
  let r := set_root_password self env server new_password in
  snd r = Ret tt /\
  successes (fst r) = [server] /\ failures (fst r) = [] /\
  Z.of_nat (tries (fst r)) = k /\
  Z.of_nat (retries (fst r)) = k - 1 /\
  Z.of_nat (alerts (fst r)) = k - 1 /\
  (forall e, insert_root (env k) = Some e ->
             In (FileLog (MsgUpdateFailed server e) "NA") (fst r)) /\
  (forall e, insert_history (env k) = Some e ->
             In (FileLog (MsgHistoryInsertFailed e) "NA") (fst r)).
Proof.
  intros Hk Hraise Htpl Hver Henc. cbv zeta. unfold set_root_password.
  assert (raises_in_body self (env k) server = false) as Hbody.
  { unfold raises_in_body. pose proof Hver as Hv. unfold verified in Hv.
    apply andb_prop in Hv. destruct Hv as [-> Hnew].
    destruct (connect_new (env k)); [discriminate|]. now rewrite Henc. }
  destruct (for_attempts_reaches_pass self env server new_password k (proj2 Hk)
              (Z.to_nat (k - 1)) 1)
    as (before & Ht & Ha & Hb & Hs & Hf & Heq); [lia | exact Hraise | exact Htpl |].
  rewrite Heq. rewrite (range_cons k) by lia.
  destruct (for_attempts_ends_when_body_returns self env server new_password k
              (range (k + 1) (max_attempts self + 1)) Hbody)
    as (Hr & Ht' & Hb' & Ha' & Hl).
  rewrite Hver in Hl. destruct Hl as [Hs' Hf'].
  destruct (one_attempt_logs_insert_failures self (env k) server new_password k
              Hver Henc) as [Hroot Hhist].
  cbn [fst snd]. unfold tries, alerts, retries in *.
  rewrite !count_app, successes_app, failures_app, Ht, Ht', Ha, Ha', Hb, Hb',
    Hs, Hs', Hf, Hf'.
  rewrite Hr. cbn [fst snd app].
  repeat split; try lia.
  - intros e He. apply in_or_app. right. now apply Hroot.
  - intros e He. apply in_or_app. right. now apply Hhist.
Qed.

Lemma persistence_failure_keeps_success_witness :
  let r := set_root_password (sample_rotation 3) world_late_database_down
             "alpha" "Xk3$Qz7!mN2@" in
  snd r = Ret tt /\
  successes (fst r) = ["alpha"] /\ failures (fst r) = [] /\
  Z.of_nat (tries (fst r)) = 2 /\
  Z.of_nat (retries (fst r)) = 2 - 1 /\
  Z.of_nat (alerts (fst r)) = 2 - 1 /\
  (forall e, insert_root (world_late_database_down 2) = Some e ->
             In (FileLog (MsgUpdateFailed "alpha" e) "NA") (fst r)) /\
  (forall e, insert_history (world_late_database_down 2) = Some e ->
             In (FileLog (MsgHistoryInsertFailed e) "NA") (fst r)).
Proof.
  apply (persistence_failure_keeps_success (sample_rotation 3)
           world_late_database_down "alpha" "Xk3$Qz7!mN2@" 2).
  - cbn. lia.
  - intros a Ha. replace a with 1 by lia. reflexivity.
  - intros a Ha. replace a with 1 by lia. reflexivity.
  - reflexivity.
  - reflexivity.
Defined.

(** ** The generator *)

(** C5: a value [generate] returns has exactly [length] characters (none
    when [length] is negative, [range] being empty then), all of them from
    the alphabet, and is not in the history. *)
Theorem generate_result_wellformed (fuel : nat) (src : Source) (length : Z)
    (historySet : list string) (s : string) :
  generate fuel src length (Some historySet) = Ret s ->
  String.length s = Z.to_nat length /\
  (0 <= length -> Z.of_nat (String.length s) = length) /\
  over_alphabet s /\
  ~ In s historySet.
Proof.
  unfold generate. intros H.
  apply generate_loop_returns in H. destruct H as [[k ->] Hn].
  rewrite join_choices_length.
  repeat split; [lia | apply join_choices_alphabet | exact Hn].
Qed.

Lemma generate_result_wellformed_witness :
  generate 3 (fun n => n) 4 (Some ["abcd"]) = Ret "efgh" /\
  String.length "efgh" = Z.to_nat 4 /\
  (0 <= 4 -> Z.of_nat (String.length "efgh") = 4) /\
  over_alphabet "efgh" /\
  ~ In "efgh" ["abcd"].
Proof.
  split; [reflexivity|].
  exact (generate_result_wellformed 3 (fun n => n) 4 ["abcd"] "efgh" eq_refl).
Defined.

(** C9: under a fair random source, one that draws every string of the
    length in some round, [generate] returns a value for every history
    that leaves a string of that length over the alphabet unused, and fair
    sources exist for every length; more generally [generate] returns as
    soon as the source draws a string outside the history, and every
    unused string is the first draw of some source.  When the history
    holds every string of that length over the alphabet, no source and no
    number of rounds makes the loop return. *)
Theorem generate_terminates_iff_space_left (length : Z) (historySet : list string) :
  let n := Z.to_nat length in
  (forall src,
      fair n src ->
      (exists s, fresh n historySet s) ->
      exists fuel s', generate fuel src length (Some historySet) = Ret s') /\
  fair n (enumerating n) /\
  (forall src round,
      ~ In (candidate src n round) historySet ->
      forall fuel, (round < fuel)%nat ->
      exists s, generate fuel src length (Some historySet) = Ret s) /\
  (forall s, fresh n historySet s ->
             candidate (source_drawing s) n 0 = s /\
             generate 1 (source_drawing s) length (Some historySet) = Ret s) /\
  (exhausted n historySet ->
   forall fuel src, generate fuel src length (Some historySet) = Diverge).
Proof.
  cbv zeta.
  assert (forall src round,
             ~ In (candidate src (Z.to_nat length) round) historySet ->
             forall fuel, (round < fuel)%nat ->
             exists s, generate fuel src length (Some historySet) = Ret s) as Hdraw.
  { intros src round Hfresh fuel Hfuel. unfold generate.
    apply (generate_loop_first_fresh src _ historySet round 0 fuel); assumption. }
  split; [|split; [|split; [|split]]].
  - intros src Hfair [s (Hlen & Halpha & Hnew)].
    destruct (Hfair s Hlen Halpha) as [round Hround].
    exists (S round). apply (Hdraw src round); [|lia].
    now rewrite Hround.
  - apply enumerating_fair.
  - exact Hdraw.
  - intros s (Hlen & Halpha & Hnew).
    pose proof (first_candidate_source_drawing s Halpha) as Hc.
    rewrite Hlen in Hc. split; [exact Hc|].
    unfold generate. cbn [generate_loop contains].
    unfold candidate in Hc. cbn in Hc. rewrite Hc.
    apply contains_false in Hnew. now rewrite Hnew.
  - intros Hex fuel src. unfold generate. now apply generate_loop_exhausted.
Qed.

(** ** Construction and the batch secret *)

(** C6: in a run that gets past construction, the history is read exactly
    once, by [__init__], before any event of any worker; the secret is the
    one value the generator returned for that snapshot; the workers never
    read the history, and every secret a worker sends to a host or to the
    database is that same value. *)
Theorem one_secret_per_batch (fuel : nat) (s : Startup)
    (hostnames_list : list string) (envs : nat -> Z -> Attempt)
    (schedule : list nat) (report : Mail) (t0 : Trace) (rotation_obj : Rotation) :
  __init__ fuel s = (t0, Ret rotation_obj) ->
  let secret := new_password_generated rotation_obj in
  let batch := fst (run rotation_obj hostnames_list envs schedule report) in
  fst (main fuel s hostnames_list envs schedule report) = t0 ++ batch /\
  count is_history_read t0 = 1%nat /\
  Forall (fun ev => is_worker_event ev = false) t0 /\
  (exists snapshot,
      history_rows s = Gives snapshot /\
      generate fuel (source s) (cfg_password_length s) (Some snapshot) = Ret secret /\
      ~ In secret snapshot) /\
  count is_history_read batch = 0%nat /\
  (forall ev p, In ev batch -> secret_of ev = Some p -> p = secret).
Proof.
  intros Hinit. cbv zeta.
  destruct (init_returns fuel s t0 rotation_obj Hinit)
    as (Ht0 & _ & snapshot & Hrows & Hgen).
  destruct (batch_event_spec _ _
              (run_batch rotation_obj hostnames_list envs schedule report))
    as [Hread Hsecret].
  destruct (get_old_password_trace (old_password_rows s)) as (_ & Hc & Hw).
  repeat split.
  - unfold main, bind. rewrite Hinit. now destruct (run _ _ _ _ _).
  - subst t0. rewrite count_app, Hc. reflexivity.
  - subst t0. apply Forall_app. split; [exact Hw | repeat constructor].
  - exists snapshot. repeat split; try assumption.
    unfold generate in Hgen. now apply generate_loop_returns in Hgen.
  - exact Hread.
  - exact Hsecret.
Qed.

Lemma one_secret_per_batch_witness :
  let rotation_obj :=
    {| password_length := 4; max_attempts := 3;
       old_passwords := Some [("beta", "c2"); ("alpha", "c1")];
       new_password_generated := "efgh" |} in
  let t0 := [SelectOldPasswords; SelectHistory] in
  let batch := fst (run rotation_obj ["alpha"; "beta"] sample_envs [1; 0]%nat
                      quiet_mail) in
  fst (main 3 sample_startup ["alpha"; "beta"] sample_envs [1; 0]%nat quiet_mail)
  = t0 ++ batch /\
  count is_history_read t0 = 1%nat /\
  Forall (fun ev => is_worker_event ev = false) t0 /\
  (exists snapshot,
      history_rows sample_startup = Gives snapshot /\
      generate 3 (source sample_startup) (cfg_password_length sample_startup)
        (Some snapshot) = Ret "efgh" /\
      ~ In "efgh" snapshot) /\
  count is_history_read batch = 0%nat /\
  (forall ev p, In ev batch -> secret_of ev = Some p -> p = "efgh").
Proof.
  apply (one_secret_per_batch 3 sample_startup ["alpha"; "beta"] sample_envs
           [1; 0]%nat quiet_mail).
  reflexivity.
Defined.

(** C10: when the history query raises, [get_password_history] writes the
    error to the file log and returns [None]; the membership test of the
    generator then raises [TypeError], [__init__] raises it in turn, and
    the program ends there: its trace holds the two selects and the log
    records only, no event of any worker. *)
Theorem history_failure_aborts_construction (e : Exn) (fuel : nat)
    (length max : Z) (old_rows : Answer (list (string * string))) (src : Source)
    (hostnames_list : list string) (envs : nat -> Z -> Attempt)
    (schedule : list nat) (report : Mail) :
  let s := {| cfg_password_length := length; cfg_max_attempts := max;
              old_password_rows := old_rows; history_rows := Fails e;
              source := src |} in
  get_password_history (Fails e)
  = ([SelectHistory; FileLog (MsgHistoryQueryFailed e) "NA"], Ret None) /\
  generate (S fuel) src length None = Raise TypeError /\
  snd (generate_random_password (S fuel) src (Fails e) length) = Raise TypeError /\
  snd (__init__ (S fuel) s) = Raise TypeError /\
  main (S fuel) s hostnames_list envs schedule report
  = (fst (get_old_password old_rows)
       ++ [SelectHistory; FileLog (MsgHistoryQueryFailed e) "NA"],
     Raise TypeError) /\
  Forall (fun ev => is_worker_event ev = false)
         (fst (main (S fuel) s hostnames_list envs schedule report)).
Proof.
  cbv zeta. repeat split.
  - destruct old_rows; reflexivity.
  - destruct old_rows; reflexivity.
  - destruct old_rows; cbn; repeat constructor.
Qed.

(** ** Mail *)

(** C8, as stated, fails: both mail methods open and fill their template
    before the [try].  An alert template that cannot be opened makes
    [send_alert_mail] raise; raised inside the handler of the worker, the
    exception ends the thread and the host reaches neither list.  A
    report template that cannot be opened makes [send_mail], and with it
    [run], raise.  And for the host with the empty name the failed
    delivery leaves no record in the file. *)
Lemma unreadable_template_propagates :
  send_alert_mail {| template := Some FileNotFoundError; smtp := None |}
    "alpha" OSError
  = ([], Raise FileNotFoundError) /\
  lists_after (fst (run (sample_rotation 3) ["alpha"]
                      (fun _ _ => world_unreachable_no_template) [] quiet_mail))
  = empty_lists /\
  snd (run (sample_rotation 3) ["alpha"] (fun _ _ => world_ok) []
         {| template := Some FileNotFoundError; smtp := None |})
  = Raise FileNotFoundError /\
  send_alert_mail {| template := None; smtp := Some SMTPException |} "" OSError
  = ([SmtpAlert "" OSError], Ret tt).
Proof. repeat split. Qed.

(** C8 (amended): once the template has been read, a delivery that fails,
    of an alert or of the final report, does not leave the mail method:
    the call returns, and the failure is written to the file log (for an
    alert, when the name of the host is not empty).  Whatever the relay
    answers, to any alert of any host and to the report, the run ends the
    same way, with the same result lists and the same events up to the
    text of the file-log records. *)
Theorem mail_failure_is_contained (e : Exn) (hostname : string) (error_msg : Exn)
    (l : Lists) (self : Rotation) (hostnames_list : list string)
    (envs : nat -> Z -> Attempt) (schedule : list nat) (report : Mail)
    (alert_answers : nat -> Z -> option Exn) (report_answer : option Exn) :
  let envs' := fun i => with_alert_relay (alert_answers i) (envs i) in
  let report' := with_relay report_answer report in
  snd (send_alert_mail {| template := None; smtp := Some e |} hostname error_msg)
  = Ret tt /\
  (hostname <> "" ->
   send_alert_mail {| template := None; smtp := Some e |} hostname error_msg
   = ([FileLog MsgAlertStarted hostname; SmtpAlert hostname error_msg;
       FileLog (MsgAlertFailed e) hostname], Ret tt)) /\
  send_mail {| template := None; smtp := Some e |} l
  = ([FileLog MsgReportStarted "NA";
      SmtpReport (fst (generate_table_rows_for_mail l))
                 (snd (generate_table_rows_for_mail l));
      FileLog (MsgReportFailed e) "NA"], Ret tt) /\
  snd (run self hostnames_list envs' schedule report')
  = snd (run self hostnames_list envs schedule report) /\
  lists_after (fst (run self hostnames_list envs' schedule report'))
  = lists_after (fst (run self hostnames_list envs schedule report)) /\
  map shadow (fst (run self hostnames_list envs' schedule report'))
  = map shadow (fst (run self hostnames_list envs schedule report)).
Proof.
  cbv zeta.
  assert (map shadow
            (interleave schedule
               (spawn self (fun i => with_alert_relay (alert_answers i) (envs i))
                  0 hostnames_list))
          = map shadow (interleave schedule (spawn self envs 0 hostnames_list)))
    as Hworkers.
  { rewrite !interleave_map. now rewrite spawn_relay. }
  pose proof (shadow_lists _ _ Hworkers) as Hlists.
  assert (map shadow (fst (run self hostnames_list
                             (fun i => with_alert_relay (alert_answers i) (envs i))
                             schedule (with_relay report_answer report)))
          = map shadow (fst (run self hostnames_list envs schedule report)))
    as Htrace.
  { rewrite !run_trace, !map_app, Hworkers, Hlists.
    f_equal. apply send_mail_relay. }
  split; [|split; [|split; [|split; [|split]]]].
  - now destruct hostname.
  - intros Hname. destruct hostname; [contradiction | reflexivity].
  - reflexivity.
  - unfold run, bind. rewrite Hlists.
    destruct (send_mail_relay report_answer report
                (lists_after (interleave schedule (spawn self envs 0 hostnames_list))))
      as [Hs _].
    destruct (send_mail (with_relay _ _) _) as [t1 r1],
             (send_mail report _) as [t2 r2].
    exact Hs.
  - now apply shadow_lists.
  - exact Htrace.
Qed.

(* ================================================================== *)
(** * Further properties of the code *)

(** ** More on one pass *)

Lemma slept_app (t t' : Trace) : slept (t ++ t') = slept t + slept t'.
Proof.
  induction t as [|ev t IH]; [reflexivity|].
  destruct ev; cbn [slept app]; rewrite ?IH; lia.
Qed.

Lemma root_inserts_app (t t' : Trace) :
  root_inserts (t ++ t') = root_inserts t ++ root_inserts t'.
Proof. apply flat_map_app. Qed.

Lemma history_inserts_app (t t' : Trace) :
  history_inserts (t ++ t') = history_inserts t ++ history_inserts t'.
Proof. apply flat_map_app. Qed.

Ltac trace_facts :=
  repeat match goal with
         | |- _ /\ _ => split
         | |- Forall _ [] => constructor
         | |- Forall _ (_ :: _) => constructor
         | |- ~ _ => intro
         | |- forall _, _ => intro
         | H : _ \/ _ |- _ => destruct H
         | H : False |- _ => destruct H
         | H : In _ _ |- _ => cbn in H
         | H : ?x <> ?x |- _ => destruct (H eq_refl)
         | H : DbLog _ _ = DbLog _ _ |- _ => injection H as <- <-
         | H : _ = DbLog _ _ |- _ => discriminate H
         | H : _ = FileLog _ _ |- _ => discriminate H
         end;
  cbn; try lia; try reflexivity; auto 20.

Lemma mirrored_app (t t' : Trace) : mirrored t -> mirrored t' -> mirrored (t ++ t').
Proof.
  intros [Hd Hf] [Hd' Hf']. split.
  - intros m h Hin Hne. apply in_app_or in Hin. apply in_or_app.
    destruct Hin as [Hin|Hin]; [left; now apply Hd | right; now apply Hd'].
  - intros m Hin. apply in_app_or in Hin.
    destruct Hin as [Hin|Hin]; [now apply (Hf m) | now apply (Hf' m)].
Qed.

Lemma mirrored_close : mirrored [SshClose].
Proof. split; [intros m h [H|[]] _; discriminate H | intros m [H|[]]; discriminate H]. Qed.

Lemma mirrored_nil : mirrored [].
Proof. split; [intros m h [] | intros m []]. Qed.

(** The body of a pass: the two inserts are issued for the host of the
    worker, exactly when it is appended to the success list; it sleeps at
    most the 60 seconds before the verification; its database records
    are mirrored in the file; and without a stored credential it raises
    before any session is opened. *)
Lemma attempt_body_effects (self : Rotation) (w : Attempt)
    (server new_password : string) :
  let body := attempt_body self w server new_password in
  root_inserts (fst body) = successes (fst body) /\
  history_inserts (fst body) = successes (fst body) /\
  0 <= slept (fst body) <= 60 /\
  mirrored (fst body) /\
  (has_stored_credential self server = false ->
   fst body = [] /\ snd body = Raise (match old_passwords self with
                                      | None => TypeError
                                      | Some _ => KeyError
                                      end)).
Proof.
  cbv zeta. unfold has_stored_credential, mirrored. open_world self w.
  split_world; trace_facts; discriminate.
Qed.

Lemma on_error_effects (self : Rotation) (w : Attempt) (server : string)
    (attempt : Z) (error : Exn) :
  let handler := on_error self w server attempt error in
  root_inserts (fst handler) = [] /\
  history_inserts (fst handler) = [] /\
  slept (fst handler) =
    (if attempt <? max_attempts self
     then if is_none (template (alert w)) then 1200 else 0
     else 0) /\
  mirrored (fst handler) /\
  Forall (fun ev => is_ssh_session ev = false) (fst handler).
Proof.
  cbv zeta. unfold mirrored. open_world self w. split_world; trace_facts.
Qed.

Lemma count_le_length (p : Event -> bool) (t : Trace) :
  (count p t <= List.length t)%nat.
Proof. unfold count. apply filter_length_le. Qed.

Lemma one_attempt_effects (self : Rotation) (w : Attempt)
    (server new_password : string) (attempt : Z) :
  let pass := one_attempt self w server new_password attempt in
  root_inserts (fst pass) = successes (fst pass) /\
  history_inserts (fst pass) = successes (fst pass) /\
  0 <= slept (fst pass) <= (if attempt <? max_attempts self then 1260 else 60) /\
  mirrored (fst pass) /\
  (has_stored_credential self server = false ->
   Forall (fun ev => is_ssh_session ev = false) (fst pass)).
Proof.
  cbv zeta. rewrite one_attempt_unfold.
  destruct (attempt_body_effects self w server new_password)
    as (Hr & Hh & Hs & Hm & Hc).
  destruct (attempt_body self w server new_password) as [t r]. cbn [fst snd] in *.
  assert (has_stored_credential self server = false ->
          Forall (fun ev => is_ssh_session ev = false) (t ++ [SshClose])) as Hc'.
  { intros Hno. destruct (Hc Hno) as [-> _]. repeat constructor. }
  assert (root_inserts (t ++ [SshClose]) = successes (t ++ [SshClose]) /\
          history_inserts (t ++ [SshClose]) = successes (t ++ [SshClose]) /\
          0 <= slept (t ++ [SshClose])
            <= (if attempt <? max_attempts self then 1260 else 60) /\
          mirrored (t ++ [SshClose])) as Hplain.
  { rewrite root_inserts_app, history_inserts_app, successes_app, slept_app.
    cbn [root_inserts history_inserts successes flat_map slept].
    rewrite !app_nil_r, Hr, Hh.
    split; [reflexivity|]. split; [reflexivity|]. split.
    - destruct (attempt <? max_attempts self); lia.
    - apply mirrored_app; [exact Hm | exact mirrored_close]. }
  destruct r as [fl|e|]; cbn [fst snd]; try tauto.
  destruct (on_error_effects self w server attempt e) as (Hr' & Hh' & Hs' & Hm2 & Hc2).
  destruct (on_error_flow self w server attempt e) as (_ & Hsucc & _).
  rewrite !root_inserts_app, !history_inserts_app, !successes_app, !slept_app,
    Hr, Hh, Hr', Hh', Hs', Hsucc.
  cbn [root_inserts history_inserts successes flat_map slept app].
  rewrite !app_nil_r.
  split; [reflexivity|]. split; [reflexivity|]. split; [|split].
  - destruct (attempt <? max_attempts self);
      [destruct (is_none (template (alert w)))|]; lia.
  - apply mirrored_app; [exact Hm|].
    apply mirrored_app; [exact Hm2 | exact mirrored_close].
  - intros Hno. destruct (Hc Hno) as [-> _]. cbn [app].
    apply Forall_app. split; [exact Hc2 | repeat constructor].
Qed.

(** ** More on the retry loop *)

(** Whatever the list of attempts: inserts go with successes, database
    records with file records, and no pass is made twice. *)
Lemma for_attempts_effects (self : Rotation) (env : Z -> Attempt)
    (server new_password : string) (attempts : list Z) :
  let t := fst (for_attempts self env server new_password attempts) in
  root_inserts t = successes t /\
  history_inserts t = successes t /\
  mirrored t /\
  (has_stored_credential self server = false ->
   Forall (fun ev => is_ssh_session ev = false) t) /\
  (tries t <= List.length attempts)%nat.
Proof.
  cbv zeta. induction attempts as [|attempt rest IH].
  - cbn. split; [|split; [|split; [|split]]]; auto. exact mirrored_nil.
  - rewrite for_attempts_cons.
    destruct (one_attempt_effects self (env attempt) server new_password attempt)
      as (Hr & Hh & _ & Hm & Hc).
    destruct (one_attempt_flow self (env attempt) server new_password attempt)
      as (Ht & _).
    destruct (one_attempt _ _ _ _ _) as [t r]. cbn [fst snd] in *.
    destruct IH as (Hr' & Hh' & Hm' & Hc' & Ht').
    destruct r as [[|]|e|]; cbn [fst snd List.length];
      try (repeat split; try assumption; try apply Hm; lia).
    rewrite root_inserts_app, history_inserts_app, successes_app, Hr, Hh, Hr', Hh'.
    unfold tries in *. rewrite count_app, Ht.
    split; [reflexivity|]. split; [reflexivity|]. split; [|split].
    + now apply mirrored_app.
    + intros Hno. apply Forall_app. split; [now apply Hc | now apply Hc'].
    + lia.
Qed.

(** Over [range(lo, max_attempts + 1)], with at least one pass ahead: the
    worker either returns, having appended its host to exactly one list,
    or is ended by an exception of the handler, having appended nothing;
    every pass but the last sleeps at most 1260 seconds, the last at most
    60. *)
Lemma for_attempts_classifies (self : Rotation) (env : Z -> Attempt)
    (server new_password : string) :
  forall (n : nat) (lo : Z),
    Z.of_nat (S n) = max_attempts self + 1 - lo ->
    let r := for_attempts self env server new_password
               (range lo (max_attempts self + 1)) in
    (snd r = Ret tt /\
     (successes (fst r) = [server] /\ failures (fst r) = [] \/
      successes (fst r) = [] /\ failures (fst r) = [server]) \/
     (exists e, snd r = Raise e) /\
     successes (fst r) = [] /\ failures (fst r) = []) /\
    0 <= slept (fst r) <= 1260 * Z.of_nat n + 60.
Proof.
  induction n as [|n IH]; intros lo Hn; cbv zeta;
    rewrite range_cons by lia; rewrite for_attempts_cons;
    pose proof (one_attempt_flow self (env lo) server new_password lo) as H;
    destruct (one_attempt_effects self (env lo) server new_password lo)
      as (_ & _ & Hs & _);
    cbv zeta in H; destruct H as (_ & H).
  - replace (lo <? max_attempts self) with false in *
      by (symmetry; apply Z.ltb_ge; lia).
    rewrite range_nil by lia.
    destruct (one_attempt _ _ _ _ _) as [t r]. cbn [fst snd for_attempts ret] in *.
    destruct (raises_in_body self (env lo) server).
    + destruct H as (Hsu & -> & Hf & _). cbn [fst snd]. rewrite app_nil_r.
      split; [|lia]. auto 10.
    + destruct H as (-> & _ & _ & H). cbn [fst snd]. split; [|lia].
      left. split; [reflexivity|].
      destruct (verified self (env lo) server); tauto.
  - replace (lo <? max_attempts self) with true in *
      by (symmetry; apply Z.ltb_lt; lia).
    destruct (IH (lo + 1)) as (Hrest & Hslept); [lia|].
    destruct (one_attempt _ _ _ _ _) as [t r]. cbn [fst snd] in *.
    destruct (raises_in_body self (env lo) server).
    + destruct H as (Hsu & Hf & H).
      destruct (template (alert (env lo))) as [e'|].
      * destruct H as (-> & _). cbn [fst snd]. split; [|lia]. right. eauto.
      * destruct H as (-> & _). cbn [fst snd].
        rewrite successes_app, failures_app, slept_app, Hsu, Hf. cbn [app].
        split; [exact Hrest | lia].
    + destruct H as (-> & _ & _ & H). cbn [fst snd]. split; [|lia].
      left. split; [reflexivity|].
      destruct (verified self (env lo) server); tauto.
Qed.

Lemma range_length (lo hi : Z) : List.length (range lo hi) = Z.to_nat (hi - lo).
Proof. unfold range. now rewrite length_map, length_seq. Qed.

Lemma set_root_password_no_attempts (self : Rotation) (env : Z -> Attempt)
    (server new_password : string) :
  max_attempts self <= 0 ->
  set_root_password self env server new_password = ([], Ret tt).
Proof.
  intros Hm. unfold set_root_password. now rewrite range_nil by lia.
Qed.

(** ** The worker, for every answer of the outside world *)

(** X1: whatever the outside world answers and whatever is configured, a
    worker appends its own host only, to one list at most and once at
    most.  A worker that returns has appended it, unless no attempt is
    configured; a worker ended by an exception has appended nothing. *)
Theorem worker_classifies_at_most_once (self : Rotation) (env : Z -> Attempt)
    (server new_password : string) :
  let r := set_root_password self env server new_password in
  (snd r = Ret tt /\ successes (fst r) = [server] /\ failures (fst r) = []) \/
  (snd r = Ret tt /\ successes (fst r) = [] /\ failures (fst r) = [server]) \/
  (successes (fst r) = [] /\ failures (fst r) = [] /\
   (max_attempts self <= 0 /\ snd r = Ret tt \/
    1 <= max_attempts self /\ exists e, snd r = Raise e)).
Proof.
  cbv zeta. destruct (Z_le_gt_dec (max_attempts self) 0) as [Hm|Hm].
  - rewrite set_root_password_no_attempts by exact Hm. cbn. auto 10.
  - unfold set_root_password.
    destruct (for_attempts_classifies self env server new_password
                (Z.to_nat (max_attempts self) - 1) 1) as [H _]; [lia|].
    cbv zeta in H.
    destruct H as [[Hr [[Hs Hf]|[Hs Hf]]]|[He [Hs Hf]]].
    + left. auto.
    + right. left. auto.
    + right. right. repeat split; try assumption. right. split; [lia | exact He].
Qed.

(** X2: the timers of a worker are bounded by its attempt count: it makes
    at most [max_attempts] passes and sleeps at most 1260 seconds in each
    pass but the last and 60 in the last, whatever happens. *)
Theorem worker_duration_bounded (self : Rotation) (env : Z -> Attempt)
    (server new_password : string) :
  let t := fst (set_root_password self env server new_password) in
  Z.of_nat (tries t) <= Z.max 0 (max_attempts self) /\
  0 <= slept t <= Z.max 0 (1260 * max_attempts self - 1200).
Proof.
  cbv zeta. split.
  - unfold set_root_password.
    destruct (for_attempts_effects self env server new_password
                (range 1 (max_attempts self + 1))) as (_ & _ & _ & _ & Ht).
    rewrite range_length in Ht. lia.
  - destruct (Z_le_gt_dec (max_attempts self) 0) as [Hm|Hm].
    + rewrite set_root_password_no_attempts by exact Hm. cbn. lia.
    + unfold set_root_password.
      destruct (for_attempts_classifies self env server new_password
                  (Z.to_nat (max_attempts self) - 1) 1) as [_ H]; [lia|].
      cbv zeta in H. lia.
Qed.

(** The bound of [worker_duration_bounded] is reached by a host whose
    verification login times out in every pass. *)
Example worker_duration_bound_reached :
  slept (fst (set_root_password (sample_rotation 2) (fun _ => world_verify_timeout)
                "alpha" "Xk3$Qz7!mN2@")) = 1260 * 2 - 1200.
Proof. reflexivity. Qed.

Lemma spawn_inserts (self : Rotation) (envs : nat -> Z -> Attempt)
    (hostnames_list : list string) :
  forall i,
    flat_map root_inserts (spawn self envs i hostnames_list)
    = flat_map successes (spawn self envs i hostnames_list) /\
    flat_map history_inserts (spawn self envs i hostnames_list)
    = flat_map successes (spawn self envs i hostnames_list).
Proof.
  induction hostnames_list as [|host rest IH]; intros i; cbn [spawn flat_map].
  - auto.
  - destruct (for_attempts_effects self (envs i) host (new_password_generated self)
                (range 1 (max_attempts self + 1))) as (Hr & Hh & _).
    fold (set_root_password self (envs i) host (new_password_generated self))
      in Hr, Hh.
    destruct (IH (S i)) as [Hr' Hh']. now rewrite Hr, Hh, Hr', Hh'.
Qed.

Lemma flat_map_concat_traces (f : Trace -> list string)
    (Happ : forall t t', f (t ++ t') = f t ++ f t') (Hnil : f [] = [])
    (threads : list Trace) :
  f (List.concat threads) = flat_map f threads.
Proof.
  induction threads as [|t threads IH]; cbn; [exact Hnil|].
  now rewrite Happ, IH.
Qed.

(** X3: the credential table and the history table are written for the
    hosts on the success list and for no other.  A worker issues each of
    the two inserts for its own host, once, when it appends that host to
    the success list, and issues none otherwise; over a whole run, for
    every schedule, the hosts of the inserts into either table are the
    hosts of the success list, as often as they are on it. *)
Theorem inserts_follow_success (self : Rotation) (env : Z -> Attempt)
    (server new_password : string) (hostnames_list : list string)
    (envs : nat -> Z -> Attempt) (schedule : list nat) (report : Mail) :
  let t := fst (set_root_password self env server new_password) in
  let all := fst (run self hostnames_list envs schedule report) in
  root_inserts t = successes t /\
  history_inserts t = successes t /\
  (successes t = [server] \/ successes t = []) /\
  Permutation (root_inserts all)
              (password_change_success_host_list (lists_after all)) /\
  Permutation (history_inserts all)
              (password_change_success_host_list (lists_after all)).
Proof.
  cbv zeta.
  destruct (for_attempts_effects self env server new_password
              (range 1 (max_attempts self + 1))) as (Hr & Hh & _).
  fold (set_root_password self env server new_password) in Hr, Hh.
  split; [exact Hr|]. split; [exact Hh|]. split.
  - destruct (Z_le_gt_dec (max_attempts self) 0) as [Hm|Hm].
    + rewrite set_root_password_no_attempts by exact Hm. now right.
    + unfold set_root_password.
      destruct (for_attempts_classifies self env server new_password
                  (Z.to_nat (max_attempts self) - 1) 1) as [H _]; [lia|].
      cbv zeta in H.
      destruct H as [[_ [[-> _]|[-> _]]]|[_ [-> _]]]; auto.
  - rewrite run_lists, lists_after_spec.
    cbn [password_change_success_host_list]. rewrite run_trace.
    set (workers := interleave schedule (spawn self envs 0 hostnames_list)).
    destruct (spawn_inserts self envs hostnames_list 0) as [Hsr Hsh].
    assert (forall l, root_inserts (fst (send_mail report l)) = [] /\
                      history_inserts (fst (send_mail report l)) = []) as Hmail.
    { intros l. destruct report as [[e|] [e'|]]; cbn; auto. }
    destruct (Hmail (lists_after workers)) as [Hmr Hmh].
    rewrite root_inserts_app, history_inserts_app, Hmr, Hmh, !app_nil_r.
    assert (Permutation workers
              (List.concat (spawn self envs 0 hostnames_list))) as HP
      by apply interleave_permutation.
    split.
    + transitivity (root_inserts (List.concat (spawn self envs 0 hostnames_list))).
      { unfold root_inserts. now apply Permutation_flat_map. }
      rewrite (flat_map_concat_traces root_inserts root_inserts_app eq_refl), Hsr.
      rewrite <- (flat_map_concat_traces successes successes_app eq_refl).
      unfold successes. apply Permutation_flat_map. now symmetry.
    + transitivity (history_inserts (List.concat (spawn self envs 0 hostnames_list))).
      { unfold history_inserts. now apply Permutation_flat_map. }
      rewrite (flat_map_concat_traces history_inserts history_inserts_app eq_refl),
        Hsh.
      rewrite <- (flat_map_concat_traces successes successes_app eq_refl).
      unfold successes. apply Permutation_flat_map. now symmetry.
Qed.

(** The loop up to the first pass whose body does not raise. *)
Lemma for_attempts_recovers (self : Rotation) (env : Z -> Attempt)
    (server new_password : string) (k : Z) :
  k <= max_attempts self ->
  raises_in_body self (env k) server = false ->
  forall (n : nat) (lo : Z),
    Z.of_nat n = k - lo ->
    (forall a, lo <= a < k -> raises_in_body self (env a) server = true) ->
    (forall a, lo <= a < k -> template (alert (env a)) = None) ->
    let r := for_attempts self env server new_password
               (range lo (max_attempts self + 1)) in
    snd r = Ret tt /\ tries (fst r) = S n /\ alerts (fst r) = n /\
    retries (fst r) = n /\
    if verified self (env k) server
    then successes (fst r) = [server] /\ failures (fst r) = []
    else successes (fst r) = [] /\ failures (fst r) = [server].
Proof.
  intros Hk Hbody. induction n as [|n IH]; intros lo Hn Hraise Htpl; cbv zeta;
    rewrite range_cons by lia.
  - replace lo with k by lia.
    destruct (for_attempts_ends_when_body_returns self env server new_password k
                (range (k + 1) (max_attempts self + 1)) Hbody)
      as (Hr & Ht & Hb & Ha & Hl).
    rewrite Hr at 1. cbn [snd]. auto 10.
  - rewrite for_attempts_cons.
    pose proof (one_attempt_flow self (env lo) server new_password lo) as H.
    cbv zeta in H. rewrite Hraise in H by lia.
    replace (lo <? max_attempts self) with true in H
      by (symmetry; apply Z.ltb_lt; lia).
    rewrite Htpl in H by lia. destruct H as (Ht & Hs & Hf & Hr & Hb & Ha).
    destruct (one_attempt _ _ _ _ _) as [t r]. cbn [fst snd] in *. subst r.
    destruct (IH (lo + 1)) as (Hr' & Ht' & Ha' & Hb' & Hl').
    { lia. }
    { intros a Hle. apply Hraise. lia. }
    { intros a Hle. apply Htpl. lia. }
    cbn [fst snd]. unfold tries, alerts, retries in *.
    rewrite !count_app, successes_app, failures_app, Ht, Ht', Ha, Ha', Hb, Hb', Hs, Hf.
    cbn [app]. auto 10.
Qed.

(** X4: a host whose first [k - 1] passes raise in their body, in whatever
    stage, each finding the alert template, and which in pass [k] is
    rotated and verified, the secret then being encrypted for storage
    without error, ends on the success list after exactly [k] passes,
    [k - 1] alerts and [k - 1] backoffs; the passes left are not made. *)
Theorem worker_recovers_after_failures (self : Rotation) (env : Z -> Attempt)
    (server new_password : string) (k : Z) :
  1 <= k <= max_attempts self ->
  (forall a, 1 <= a < k -> raises_in_body self (env a) server = true) ->
  (forall a, 1 <= a < k -> template (alert (env a)) = None) ->
  verified self (env k) server = true ->
  encrypt_new (env k) = None ->
  let r := set_root_password self env server new_password in
  snd r = Ret tt /\
  successes (fst r) = [server] /\ failures (fst r) = [] /\
  Z.of_nat (tries (fst r)) = k /\
  Z.of_nat (alerts (fst r)) = k - 1 /\
  Z.of_nat (retries (fst r)) = k - 1.
Proof.
  intros Hk Hraise Htpl Hver Henc. cbv zeta. unfold set_root_password.
  assert (raises_in_body self (env k) server = false) as Hbody.
  { unfold raises_in_body. pose proof Hver as Hv. unfold verified in Hv.
    apply andb_prop in Hv. destruct Hv as [-> Hnew].
    destruct (connect_new (env k)); [discriminate|]. now rewrite Henc. }
  destruct (for_attempts_recovers self env server new_password k
              (proj2 Hk) Hbody (Z.to_nat (k - 1)) 1)
    as (Hr & Ht & Ha & Hb & Hl); [lia | exact Hraise | exact Htpl |].
  rewrite Hver in Hl. destruct Hl as [Hs Hf].
  rewrite Hr, Ht, Ha, Hb, Hs, Hf. repeat split; lia.
Qed.

Lemma worker_recovers_after_failures_witness :
  let r := set_root_password (sample_rotation 5) world_recovering
             "alpha" "Xk3$Qz7!mN2@" in
  snd r = Ret tt /\
  successes (fst r) = ["alpha"] /\ failures (fst r) = [] /\
  Z.of_nat (tries (fst r)) = 3 /\
  Z.of_nat (alerts (fst r)) = 3 - 1 /\
  Z.of_nat (retries (fst r)) = 3 - 1.
Proof.
  apply (worker_recovers_after_failures (sample_rotation 5) world_recovering
           "alpha" "Xk3$Qz7!mN2@" 3).
  - cbn. lia.
  - intros a Ha. unfold world_recovering.
    replace (a <? 3) with true by (symmetry; apply Z.ltb_lt; lia). reflexivity.
  - intros a Ha. unfold world_recovering.
    replace (a <? 3) with true by (symmetry; apply Z.ltb_lt; lia). reflexivity.
  - reflexivity.
  - reflexivity.
Defined.

Lemma no_credential_raises (self : Rotation) (w : Attempt) (server : string) :
  has_stored_credential self server = false ->
  raises_in_body self w server = true.
Proof.
  unfold has_stored_credential, raises_in_body, reaches_verification.
  now destruct (subscript (old_passwords self) server).
Qed.

(** Without a stored credential a pass sleeps in the backoff only. *)
Lemma for_attempts_no_credential_slept (self : Rotation) (env : Z -> Attempt)
    (server new_password : string) :
  has_stored_credential self server = false ->
  forall (n : nat) (lo : Z),
    Z.of_nat (S n) = max_attempts self + 1 - lo ->
    (forall a, lo <= a < max_attempts self -> template (alert (env a)) = None) ->
    slept (fst (for_attempts self env server new_password
                  (range lo (max_attempts self + 1)))) = 1200 * Z.of_nat n.
Proof.
  intros Hno. induction n as [|n IH]; intros lo Hn Htpl;
    rewrite range_cons by lia; rewrite for_attempts_cons, one_attempt_unfold;
    destruct (attempt_body_effects self (env lo) server new_password)
      as (_ & _ & _ & _ & Hb);
    destruct (Hb Hno) as [Hbt Hbr];
    destruct (attempt_body self (env lo) server new_password) as [tb rb];
    cbn [fst snd] in Hbt, Hbr; subst tb rb;
    destruct (on_error_effects self (env lo) server lo
                (match old_passwords self with
                 | Some _ => KeyError
                 | None => TypeError
                 end)) as (_ & _ & Hs & _);
    destruct (on_error_flow self (env lo) server lo
                (match old_passwords self with
                 | Some _ => KeyError
                 | None => TypeError
                 end)) as (_ & _ & Hflow).
  - replace (lo <? max_attempts self) with false in *
      by (symmetry; apply Z.ltb_ge; lia).
    destruct Hflow as (-> & _). rewrite range_nil by lia.
    cbn [fst snd for_attempts ret app]. rewrite !slept_app, Hs. cbn [slept app]. lia.
  - replace (lo <? max_attempts self) with true in *
      by (symmetry; apply Z.ltb_lt; lia).
    rewrite Htpl in * by lia. destruct Hflow as (_ & -> & _).
    cbn [fst snd app is_none] in *. rewrite !slept_app, Hs.
    rewrite (IH (lo + 1)) by (lia || (intros a Ha; apply Htpl; lia)).
    cbn [slept app]. lia.
Qed.


(** X5: with at least one attempt configured and an alert template that
    can be read, a host without a stored credential (the table has no row
    for it, or the table could not be read at all) is never contacted:
    the subscript raises before [ssh.connect]; the worker still makes all
    [max_attempts] passes, with an alert and a backoff of 1200 seconds
    after each but the last, and ends on the failure list. *)
Theorem missing_credential_exhausts_attempts (self : Rotation)
    (env : Z -> Attempt) (server new_password : string) :
  has_stored_credential self server = false ->
  1 <= max_attempts self ->
  (forall a, 1 <= a < max_attempts self -> template (alert (env a)) = None) ->
  let r := set_root_password self env server new_password in
  snd r = Ret tt /\
  successes (fst r) = [] /\ failures (fst r) = [server] /\
  Z.of_nat (tries (fst r)) = max_attempts self /\
  Z.of_nat (alerts (fst r)) = max_attempts self - 1 /\
  slept (fst r) = 1200 * (max_attempts self - 1) /\
  Forall (fun ev => is_ssh_session ev = false) (fst r).
Proof.
  intros Hno Hm Htpl. cbv zeta. unfold set_root_password.
  destruct (for_attempts_always_raising self env server new_password
              (Z.to_nat (max_attempts self) - 1) 1) as (Hr & Ht & Ha & _ & Hs & Hf).
  { lia. }
  { intros a _. now apply no_credential_raises. }
  { exact Htpl. }
  destruct (for_attempts_effects self env server new_password
              (range 1 (max_attempts self + 1))) as (_ & _ & _ & Hssh & _).
  rewrite (for_attempts_no_credential_slept self env server new_password Hno
             (Z.to_nat (max_attempts self) - 1) 1) by (lia || exact Htpl).
  rewrite Hr, Ht, Ha, Hs, Hf. repeat split; try lia. now apply Hssh.
Qed.

Lemma missing_credential_exhausts_attempts_witness :
  let r := set_root_password (sample_rotation 3) (fun _ => world_ok)
             "gamma" "Xk3$Qz7!mN2@" in
  snd r = Ret tt /\
  successes (fst r) = [] /\ failures (fst r) = ["gamma"] /\
  Z.of_nat (tries (fst r)) = 3 /\
  Z.of_nat (alerts (fst r)) = 3 - 1 /\
  slept (fst r) = 1200 * (3 - 1) /\
  Forall (fun ev => is_ssh_session ev = false) (fst r).
Proof.
  apply (missing_credential_exhausts_attempts (sample_rotation 3)
           (fun _ => world_ok) "gamma" "Xk3$Qz7!mN2@").
  - reflexivity.
  - cbn. lia.
  - intros a _. reflexivity.
Defined.

(** ** The coordinator, once more *)

Lemma spawn_threads (self : Rotation) (envs : nat -> Z -> Attempt)
    (hostnames_list : list string) :
  forall i t,
    In t (spawn self envs i hostnames_list) ->
    exists j host,
      In host hostnames_list /\
      t = fst (set_root_password self (envs j) host (new_password_generated self)).
Proof.
  induction hostnames_list as [|host rest IH]; intros i t Hin; cbn in Hin.
  - contradiction.
  - destruct Hin as [<-|Hin].
    + exists i, host. split; [now left | reflexivity].
    + destruct (IH (S i) t Hin) as (j & h & Hh & Ht).
      exists j, h. split; [now right | exact Ht].
Qed.

Lemma spawn_length (self : Rotation) (envs : nat -> Z -> Attempt)
    (hostnames_list : list string) :
  forall i, List.length (spawn self envs i hostnames_list)
            = List.length hostnames_list.
Proof.
  induction hostnames_list as [|host rest IH]; intros i; cbn; [reflexivity|].
  now rewrite IH.
Qed.

(** An event of the interleaved workers is an event of one worker. *)
Lemma workers_event (self : Rotation) (envs : nat -> Z -> Attempt)
    (hostnames_list : list string) (schedule : list nat) (ev : Event) :
  In ev (interleave schedule (spawn self envs 0 hostnames_list)) ->
  exists j host,
    In host hostnames_list /\
    In ev (fst (set_root_password self (envs j) host (new_password_generated self))).
Proof.
  intros Hin.
  apply (Permutation_in _ (interleave_permutation schedule _)) in Hin.
  apply in_concat in Hin. destruct Hin as (t & Ht & Hev).
  destruct (spawn_threads self envs hostnames_list 0 t Ht) as (j & host & Hh & ->).
  eauto.
Qed.

Lemma attempt_body_no_report (self : Rotation) (w : Attempt)
    (server new_password : string) :
  Forall (fun ev => is_report ev = false)
         (fst (attempt_body self w server new_password)).
Proof.
  open_world self w. split_world; repeat constructor.
Qed.

Lemma on_error_no_report (self : Rotation) (w : Attempt) (server : string)
    (attempt : Z) (error : Exn) :
  Forall (fun ev => is_report ev = false)
         (fst (on_error self w server attempt error)).
Proof.
  open_world self w. split_world; repeat constructor.
Qed.

Lemma for_attempts_no_report (self : Rotation) (env : Z -> Attempt)
    (server new_password : string) (attempts : list Z) :
  Forall (fun ev => is_report ev = false)
         (fst (for_attempts self env server new_password attempts)).
Proof.
  induction attempts as [|attempt rest IH]; [constructor|].
  rewrite for_attempts_cons, one_attempt_unfold.
  pose proof (attempt_body_no_report self (env attempt) server new_password) as Hb.
  destruct (attempt_body _ _ _ _) as [t [fl|e|]]; cbn [fst snd] in *.
  - destruct fl; cbn [fst]; repeat (apply Forall_app; split);
      try assumption; repeat constructor.
  - pose proof (on_error_no_report self (env attempt) server attempt e) as Hh.
    destruct (snd (on_error _ _ _ _ _)) as [[|]|e'|]; cbn [fst];
      repeat (apply Forall_app; split); try assumption; repeat constructor.
  - apply Forall_app; split; [exact Hb | repeat constructor].
Qed.

Lemma workers_no_report (self : Rotation) (envs : nat -> Z -> Attempt)
    (hostnames_list : list string) (schedule : list nat) :
  count is_report (interleave schedule (spawn self envs 0 hostnames_list)) = 0%nat.
Proof.
  assert (Forall (fun ev => is_report ev = false)
                 (interleave schedule (spawn self envs 0 hostnames_list))) as H.
  { apply Forall_forall. intros ev Hin.
    destruct (workers_event self envs hostnames_list schedule ev Hin)
      as (j & host & _ & Hev).
    pose proof (for_attempts_no_report self (envs j) host
                  (new_password_generated self)
                  (range 1 (max_attempts self + 1))) as Hall.
    rewrite Forall_forall in Hall. now apply Hall. }
  induction H as [|ev t Hev _ IH]; [reflexivity|].
  unfold count in *. cbn. now rewrite Hev.
Qed.

(** X6: [run] sends the report after the join and at most once: its trace
    is the interleaved workers, which hold no report, followed by the
    events of [send_mail]; with a readable template exactly one report is
    handed to the relay, its two tables built from the lists as they are
    when every worker has ended, and [run] returns; with an unreadable
    template no report is sent and [run] raises, the lists being what the
    workers left. *)
Theorem run_reports_once_after_join (self : Rotation)
    (hostnames_list : list string) (envs : nat -> Z -> Attempt)
    (schedule : list nat) (report : Mail) :
  let r := run self hostnames_list envs schedule report in
  let workers := interleave schedule (spawn self envs 0 hostnames_list) in
  let l := lists_after workers in
  count is_report workers = 0%nat /\
  lists_after (fst r) = l /\
  match template report with
  | None =>
      fst r = workers ++
              [FileLog MsgReportStarted "NA";
               SmtpReport (table_rows (password_change_success_host_list l))
                          (table_rows (password_change_fail_host_list l));
               FileLog (match smtp report with
                        | None => MsgReportSent
                        | Some e => MsgReportFailed e
                        end) "NA"] /\
      snd r = Ret tt /\ count is_report (fst r) = 1%nat
  | Some e =>
      fst r = workers /\ snd r = Raise e /\ count is_report (fst r) = 0%nat
  end.
Proof.
  cbv zeta. split; [apply workers_no_report|]. split; [apply run_lists|].
  pose proof (workers_no_report self envs hostnames_list schedule) as Hw.
  unfold run, bind.
  set (workers := interleave schedule (spawn self envs 0 hostnames_list)) in *.
  destruct report as [[e|] [e'|]]; cbn;
    rewrite ?app_nil_r, ?count_app, ?Hw; repeat split;
    unfold count in Hw; rewrite ?filter_app, ?length_app, ?Hw; reflexivity.
Qed.

Lemma workers_mirrored (self : Rotation) (envs : nat -> Z -> Attempt)
    (hostnames_list : list string) (schedule : list nat) :
  mirrored (interleave schedule (spawn self envs 0 hostnames_list)).
Proof.
  assert (forall ev t, In t (spawn self envs 0 hostnames_list) -> In ev t ->
                       In ev (interleave schedule (spawn self envs 0 hostnames_list)))
    as Hback.
  { intros ev t Ht Hev.
    apply (Permutation_in _ (Permutation_sym (interleave_permutation schedule _))).
    apply in_concat. eauto. }
  assert (forall ev,
             In ev (interleave schedule (spawn self envs 0 hostnames_list)) ->
             exists t, In t (spawn self envs 0 hostnames_list) /\ In ev t /\
                       mirrored t) as Hthread.
  { intros ev Hin.
    apply (Permutation_in _ (interleave_permutation schedule _)) in Hin.
    apply in_concat in Hin. destruct Hin as (t & Ht & Hev).
    exists t. repeat split; try assumption.
    - destruct (spawn_threads self envs hostnames_list 0 t Ht)
        as (j & host & _ & ->).
      apply (for_attempts_effects self (envs j) host (new_password_generated self)
               (range 1 (max_attempts self + 1))).
    - destruct (spawn_threads self envs hostnames_list 0 t Ht)
        as (j & host & _ & ->).
      apply (for_attempts_effects self (envs j) host (new_password_generated self)
               (range 1 (max_attempts self + 1))). }
  split.
  - intros m h Hin Hne. destruct (Hthread _ Hin) as (t & Ht & Hev & [Hd _]).
    apply (Hback _ t Ht). now apply Hd.
  - intros m Hin. destruct (Hthread _ Hin) as (t & Ht & Hev & [_ Hf]).
    now apply (Hf m).
Qed.

(** X7: every record a run sends to the database log for a host whose
    name is not empty is in the file log too, with the same text and
    host; and no record for the empty name (the host a blank line of the
    host file gives) ever reaches the file log, although its records are
    sent to the database. *)
Theorem database_log_mirrors_file_log (self : Rotation)
    (hostnames_list : list string) (envs : nat -> Z -> Attempt)
    (schedule : list nat) (report : Mail) (m : LogMsg) (h : string) :
  let t := fst (run self hostnames_list envs schedule report) in
  (In (DbLog m h) t -> h <> "" -> In (FileLog m h) t) /\
  ~ In (FileLog m "") t.
Proof.
  cbv zeta. rewrite run_trace.
  assert (mirrored (fst (send_mail report
                           (lists_after (interleave schedule
                                           (spawn self envs 0 hostnames_list))))))
    as Hmail.
  { destruct report as [[e|] [e'|]]; unfold mirrored; cbn;
      split; intros; intuition discriminate. }
  destruct (mirrored_app _ _ (workers_mirrored self envs hostnames_list schedule)
              Hmail) as [Hd Hf].
  split; [apply Hd | apply Hf].
Qed.

Lemma database_log_mirrors_file_log_witness :
  In (FileLog (MsgStarted "alpha") "alpha")
     (fst (run (sample_rotation 3) ["alpha"; "beta"] sample_envs [1; 0]%nat
             quiet_mail)).
Proof.
  apply (proj1 (database_log_mirrors_file_log (sample_rotation 3)
                  ["alpha"; "beta"] sample_envs [1; 0]%nat quiet_mail
                  (MsgStarted "alpha") "alpha")).
  - cbn. repeat (first [left; reflexivity | right]).
  - discriminate.
Defined.

(** A blank line of the host file: its worker sends records to the
    database log and none to the file log. *)
Example blank_line_leaves_no_file_record :
  fst (set_root_password (sample_rotation 1) (fun _ => world_ok) "" "Xk3$Qz7!mN2@")
  = [DbLog (MsgGaveUp "" 1 KeyError) ""; AppendFail ""; SshClose].
Proof. reflexivity. Qed.







(** ** The tables of the report *)

Lemma string_append_assoc (a b c : string) :
  ((a ++ b) ++ c = a ++ (b ++ c))%string.
Proof. induction a as [|x a IH]; cbn; [reflexivity | now rewrite IH]. Qed.

Lemma string_append_nil_r (a : string) : (a ++ "" = a)%string.
Proof. induction a as [|x a IH]; cbn; [reflexivity | now rewrite IH]. Qed.

Lemma table_rows_from (hosts : list string) (rows : string) :
  fold_left (fun rows i => rows ++ "<tr><td>" ++ i ++ "</td></tr>")%string hosts rows
  = (rows ++ String.concat "" (map table_row hosts))%string.
Proof.
  revert rows. induction hosts as [|h hosts IH]; intros rows.
  - cbn. now rewrite string_append_nil_r.
  - cbn [fold_left map]. rewrite IH, string_append_assoc. f_equal.
    fold (table_row h). destruct hosts as [|h' hosts]; cbn [String.concat map].
    + now rewrite string_append_nil_r.
    + reflexivity.
Qed.

(** X9: a table of the report holds one row per entry of the list, in the
    order of the list and with the host text as it is, and nothing else;
    so the table of an empty list is empty and the table of two lists put
    together is the two tables put together. *)
Theorem table_rows_in_order (hosts more : list string) (l : Lists) :
  table_rows hosts = String.concat "" (map table_row hosts) /\
  table_rows [] = "" /\
  table_rows (hosts ++ more) = (table_rows hosts ++ table_rows more)%string /\
  generate_table_rows_for_mail l
  = (String.concat "" (map table_row (password_change_success_host_list l)),
     String.concat "" (map table_row (password_change_fail_host_list l))).
Proof.
  assert (forall hs, table_rows hs = String.concat "" (map table_row hs)) as H.
  { intros hs. unfold table_rows. now rewrite table_rows_from. }
  repeat split.
  - apply H.
  - unfold table_rows at 1. rewrite fold_left_app.
    fold (table_rows hosts). rewrite table_rows_from. now rewrite <- H.
  - unfold generate_table_rows_for_mail. now rewrite !H.
Qed.

(** ** The dictionary of stored credentials *)

Lemma dict_lookup_filter (d : Dict) (k k' : string) :
  String.eqb k' k = false ->
  dict_lookup (filter (fun kv => negb (String.eqb (fst kv) k')) d) k
  = dict_lookup d k.
Proof.
  intros Hne. induction d as [|[k0 v0] d IH]; [reflexivity|].
  cbn [filter fst dict_lookup].
  destruct (String.eqb k0 k') eqn:E0; cbn [negb].
  - apply String.eqb_eq in E0. subst k0. rewrite Hne. exact IH.
  - cbn [dict_lookup]. destruct (String.eqb k0 k); [reflexivity | exact IH].
Qed.

Lemma dict_lookup_set (d : Dict) (k k' v : string) :
  dict_lookup (dict_set d k' v) k
  = if String.eqb k' k then Some v else dict_lookup d k.
Proof.
  unfold dict_set. cbn [dict_lookup].
  destruct (String.eqb k' k) eqn:E; [reflexivity|].
  now apply dict_lookup_filter.
Qed.

Lemma find_app {A} (p : A -> bool) (l l' : list A) :
  find p (l ++ l') = match find p l with
                     | Some x => Some x
                     | None => find p l'
                     end.
Proof.
  induction l as [|x l IH]; [reflexivity|].
  cbn. destruct (p x); [reflexivity | exact IH].
Qed.

Lemma dict_lookup_fold (rows : list (string * string)) (d : Dict) (k : string) :
  dict_lookup (fold_left (fun d row => dict_set d (fst row) (snd row)) rows d) k
  = match last_row rows k with
    | Some v => Some v
    | None => dict_lookup d k
    end.
Proof.
  revert d. induction rows as [|row rows IH]; intros d; [reflexivity|].
  cbn [fold_left]. rewrite IH. unfold last_row. cbn [rev].
  rewrite find_app. destruct (find _ (rev rows)) as [found|]; [reflexivity|].
  rewrite dict_lookup_set. cbn [find].
  destruct (String.eqb (fst row) k); reflexivity.
Qed.

(** X10: [get_old_password] never raises.  On rows it returns the
    dictionary in which every host has the credential of its last row, so
    that [old_passwords[host]] gives that credential and raises
    [KeyError] for a host without a row; on a failing query it writes the
    failure to the file log and returns [None], on which every subscript
    raises [TypeError]. *)
Theorem get_old_password_last_row_wins (rows : list (string * string))
    (e : Exn) (host : string) :
  get_old_password (Gives rows)
  = ([SelectOldPasswords], Ret (Some (password_dict rows))) /\
  subscript (Some (password_dict rows)) host
  = match last_row rows host with
    | Some credential => Ret credential
    | None => Raise KeyError
    end /\
  get_old_password (Fails e)
  = ([SelectOldPasswords; FileLog (MsgOldPasswordsFailed e) "NA"], Ret None) /\
  subscript None host = Raise TypeError.
Proof.
  repeat split.
  unfold subscript, password_dict. rewrite dict_lookup_fold.
  now destruct (last_row rows host).
Qed.

Example stored_credential_of_last_row :
  subscript (Some (password_dict [("alpha", "c1"); ("beta", "c2"); ("alpha", "c3")]))
            "alpha" = Ret "c3".
Proof. reflexivity. Qed.

(** ** The generator returns the first usable candidate *)

Lemma generate_loop_first (fuel : nat) (src : Source) (n : nat)
    (historySet : list string) (s : string) :
  forall pos,
    generate_loop fuel src pos n (Some historySet) = Ret s ->
    exists k,
      (k < fuel)%nat /\
      s = join_choices src (pos + k * n) n /\
      ~ In s historySet /\
      forall j, (j < k)%nat -> In (join_choices src (pos + j * n) n) historySet.
Proof.
  induction fuel as [|fuel IH]; intros pos; cbn; [discriminate|].
  destruct (existsb _ historySet) eqn:E.
  - intros H. destruct (IH _ H) as (k & Hk & Hs & Hn & Hbefore).
    exists (S k). repeat split.
    + lia.
    + rewrite Hs. f_equal. lia.
    + exact Hn.
    + intros [|j] Hj.
      * replace (pos + 0 * n)%nat with pos by lia.
        apply existsb_exists in E. destruct E as (x & Hx & Heq).
        apply String.eqb_eq in Heq. now subst x.
      * replace (pos + S j * n)%nat with (pos + n + j * n)%nat by lia.
        apply Hbefore. lia.
  - intros H. injection H as <-. exists 0%nat. repeat split.
    + lia.
    + f_equal. lia.
    + now apply contains_false.
    + intros j Hj. lia.
Qed.

(** X11: the secret [generate] returns is the candidate of the first
    round whose candidate is not in the history: every candidate drawn
    before it is in the history, so no usable candidate is thrown away
    and the source is read for exactly that many rounds. *)
Theorem generate_returns_first_unused (fuel : nat) (src : Source) (length : Z)
    (historySet : list string) (s : string) :
  generate fuel src length (Some historySet) = Ret s ->
  exists round,
    (round < fuel)%nat /\
    s = candidate src (Z.to_nat length) round /\
    ~ In s historySet /\
    forall earlier, (earlier < round)%nat ->
                    In (candidate src (Z.to_nat length) earlier) historySet.
Proof.
  unfold generate, candidate. intros H.
  destruct (generate_loop_first _ _ _ _ _ 0%nat H) as (k & Hk & Hs & Hn & Hb).
  exists k. repeat split; assumption.
Qed.

Lemma generate_returns_first_unused_witness :
  exists round,
    (round < 3)%nat /\
    "efgh" = candidate (fun n => n) (Z.to_nat 4) round /\
    ~ In "efgh" ["abcd"] /\
    forall earlier, (earlier < round)%nat ->
                    In (candidate (fun n => n) (Z.to_nat 4) earlier) ["abcd"].
Proof.
  exact (generate_returns_first_unused 3 (fun n => n) 4 ["abcd"] "efgh" eq_refl).
Defined.

(** ** The host file *)







Lemma lstrip_all_space (s : string) : all_space s = true -> lstrip s = "".
Proof.
  unfold all_space. induction s as [|x s IH]; cbn; [reflexivity|].
  intros H. apply andb_prop in H. destruct H as [-> H]. now apply IH.
Qed.


Example strip_examples :
  strip ("  alpha.example.org" ++ String "010" "")%string = "alpha.example.org" /\
  strip (String "009" (String "010" "")) = "" /\
  strip "a b" = "a b".
Proof. repeat split. Qed.

(** With at least one attempt configured and readable alert templates,
    every worker appends its host once, so the two lists together are a
    rearrangement of the host list, repeats and all. *)
Lemma run_one_entry_per_host (self : Rotation) (hostnames_list : list string)
    (envs : nat -> Z -> Attempt) (schedule : list nat) (report : Mail) :
  1 <= max_attempts self ->
  (forall i a, template (alert (envs i a)) = None) ->
  let l := lists_after (fst (run self hostnames_list envs schedule report)) in
  Permutation (password_change_success_host_list l
                 ++ password_change_fail_host_list l) hostnames_list.
Proof.
  intros Hm Htpl. cbv zeta. rewrite run_lists, lists_after_spec. cbn [
    password_change_success_host_list password_change_fail_host_list].
  rewrite appended_split. unfold appended at 1.
  rewrite (Permutation_flat_map _ (interleave_permutation schedule _)).
  fold (appended (List.concat (spawn self envs 0 hostnames_list))).
  rewrite appended_concat.
  now rewrite (spawn_appended self envs hostnames_list Hm Htpl 0).
Qed.

(** X13: [run] starts one worker for every line of the host file, blank
    lines and repeated hosts included: a blank line is the host with the
    empty name, and (with at least one attempt configured and readable
    alert templates) the success list and the failure list together hold
    exactly one entry per line, the stripped lines in some order. *)
Theorem one_worker_per_line (self : Rotation) (lines : list string)
    (envs : nat -> Z -> Attempt) (schedule : list nat) (report : Mail) :
  1 <= max_attempts self ->
  (forall i a, template (alert (envs i a)) = None) ->
  let l := lists_after (fst (run_lines self lines envs schedule report)) in
  let entries := password_change_success_host_list l
                   ++ password_change_fail_host_list l in
  List.length (spawn self envs 0 (read_hostnames lines)) = List.length lines /\
  Permutation entries (map strip lines) /\
  List.length entries = List.length lines /\
  (forall line, In line lines -> all_space line = true -> In "" entries).
Proof.
  intros Hm Htpl. cbv zeta. unfold run_lines.
  pose proof (run_one_entry_per_host self (read_hostnames lines) envs schedule
                report Hm Htpl) as HP.
  cbv zeta in HP. unfold read_hostnames in *.
  split; [now rewrite spawn_length, length_map|].
  split; [exact HP|]. split.
  - rewrite (Permutation_length HP). apply length_map.
  - intros line Hin Hblank.
    apply (Permutation_in _ (Permutation_sym HP)).
    apply in_map_iff. exists line. split; [|exact Hin].
    unfold strip. now rewrite lstrip_all_space.
Qed.

Lemma one_worker_per_line_witness :
  let lines := [("alpha" ++ String "010" "")%string; String "010" "";
                (" alpha" ++ String "010" "")%string] in
  let l := lists_after (fst (run_lines (sample_rotation 2) lines
                               (fun _ _ => world_ok) [] quiet_mail)) in
  let entries := password_change_success_host_list l
                   ++ password_change_fail_host_list l in
  List.length (spawn (sample_rotation 2) (fun _ _ => world_ok) 0
                 (read_hostnames lines)) = List.length lines /\
  Permutation entries (map strip lines) /\
  List.length entries = List.length lines /\
  (forall line, In line lines -> all_space line = true -> In "" entries).
Proof.
  apply one_worker_per_line.
  - cbn. lia.
  - intros i a. reflexivity.
Defined.

(** ** The stored form of a credential *)

Lemma hex_digit_facts (d : nat) :
  (d < 16)%nat ->
  is_ascii_space (hex_digit d) = false /\ digit_value (hex_digit d) = Some d.
Proof.
  intros H. do 16 (destruct d as [|d]; [split; reflexivity|]). lia.
Qed.

Lemma fromhex_hex_app (b : list Byte.byte) (s : string) :
  fromhex (hex b ++ s)%string =
  match fromhex s with
  | Ret rest => Ret (b ++ rest)
  | other => other
  end.
Proof.
  induction b as [|x b IH].
  - cbn. now destruct (fromhex s).
  - cbn [hex String.append].
    pose proof (Byte.to_nat_bounded x) as Hx.
    destruct (hex_digit_facts (Byte.to_nat x / 16)) as [Hs1 Hd1].
    { apply Nat.Div0.div_lt_upper_bound. lia. }
    destruct (hex_digit_facts (Byte.to_nat x mod 16)) as [Hs2 Hd2].
    { apply Nat.mod_upper_bound. discriminate. }
    cbn [fromhex]. rewrite Hs1, Hd1, Hd2.
    rewrite <- (Nat.div_mod_eq (Byte.to_nat x) 16), Byte.of_to_nat.
    fold fromhex. rewrite IH. now destruct (fromhex s).
Qed.

Lemma hex_length (b : list Byte.byte) :
  String.length (hex b) = (2 * List.length b)%nat.
Proof.
  induction b as [|x b IH]; [reflexivity|].
  cbn [hex String.length List.length]. rewrite IH. lia.
Qed.

Lemma fromhex_dangling (c : ascii) :
  is_ascii_space c = false -> fromhex (String c "") = Raise ValueError.
Proof.
  intros H. cbn [fromhex]. rewrite H. now destruct (digit_value c).
Qed.

(** X14: the text [credential_encrypter] stores is read back by the
    [bytes.fromhex] of [credential_decrypter] as the very bytes that
    [hex()] was given; it has two characters per byte; white space
    between two byte strings is skipped; and one more character that is
    not white space, a digit or not, makes the text invalid
    ([ValueError]). *)
Theorem stored_hex_reads_back (b b' : list Byte.byte) (c : ascii) :
  fromhex (hex b) = Ret b /\
  String.length (hex b) = (2 * List.length b)%nat /\
  (is_ascii_space c = true ->
   fromhex (hex b ++ String c (hex b'))%string = Ret (b ++ b')) /\
  (is_ascii_space c = false ->
   fromhex (hex b ++ String c "")%string = Raise ValueError).
Proof.
  split; [|split; [apply hex_length|split]].
  - rewrite <- (string_append_nil_r (hex b)), fromhex_hex_app. cbn.
    now rewrite app_nil_r.
  - intros Hc. rewrite fromhex_hex_app. cbn [fromhex]. rewrite Hc.
    rewrite <- (string_append_nil_r (hex b')), fromhex_hex_app. cbn.
    now rewrite app_nil_r.
  - intros Hc. rewrite fromhex_hex_app. now rewrite fromhex_dangling.
Qed.

(** X15: a credential written by [credential_encrypter] is read back by
    [credential_decrypter]: when the key files load, the private key
    undoes the public one on the encoded secret and the codec decodes what
    it encoded, decrypting the stored text gives the secret.  A key file
    that cannot be loaded raises before anything else is looked at, and a
    stored text with a dangling character raises [ValueError] before the
    private key is used. *)
Theorem credential_round_trip
    (encode_utf8 : string -> list Byte.byte)
    (decode_utf8 : list Byte.byte -> Result string)
    (public_key_encrypt private_key_decrypt : list Byte.byte -> Result (list Byte.byte))
    (client_secret : string) (ciphertext : list Byte.byte) :
  public_key_encrypt (encode_utf8 client_secret) = Ret ciphertext ->
  private_key_decrypt ciphertext = Ret (encode_utf8 client_secret) ->
  decode_utf8 (encode_utf8 client_secret) = Ret client_secret ->
  credential_encrypter encode_utf8 public_key_encrypt None client_secret
  = Ret (hex ciphertext) /\
  credential_decrypter decode_utf8 private_key_decrypt None (hex ciphertext)
  = Ret client_secret /\
  (forall e stored,
      credential_decrypter decode_utf8 private_key_decrypt (Some e) stored = Raise e) /\
  (forall c, is_ascii_space c = false ->
             credential_decrypter decode_utf8 private_key_decrypt None
               (hex ciphertext ++ String c "")%string = Raise ValueError).
Proof.
  intros Henc Hdec Hcodec. unfold credential_encrypter, credential_decrypter.
  rewrite Henc. split; [reflexivity|]. split; [|split].
  - rewrite <- (string_append_nil_r (hex ciphertext)), fromhex_hex_app. cbn.
    now rewrite app_nil_r, Hdec.
  - reflexivity.
  - intros c Hc. rewrite fromhex_hex_app. now rewrite fromhex_dangling.
Qed.

Lemma credential_round_trip_witness :
  credential_encrypter list_byte_of_string toy_encrypt None "Xk3$"
  = Ret (hex (rev (list_byte_of_string "Xk3$"))) /\
  credential_decrypter toy_decode toy_decrypt None
    (hex (rev (list_byte_of_string "Xk3$"))) = Ret "Xk3$" /\
  (forall e stored,
      credential_decrypter toy_decode toy_decrypt (Some e) stored = Raise e) /\
  (forall c, is_ascii_space c = false ->
             credential_decrypter toy_decode toy_decrypt None
               (hex (rev (list_byte_of_string "Xk3$")) ++ String c "")%string
             = Raise ValueError).
Proof.
  apply (credential_round_trip list_byte_of_string toy_decode toy_encrypt
           toy_decrypt "Xk3$" (rev (list_byte_of_string "Xk3$"))).
  - reflexivity.
  - reflexivity.
  - reflexivity.
Defined.

Example stored_form_of_a_credential :
  hex (rev (list_byte_of_string "Xk3$")) = "24336b58" /\
  fromhex "24 33 6B 58" = Ret (rev (list_byte_of_string "Xk3$")) /\
  fromhex "2 4336b58" = Raise ValueError.
Proof. repeat split. Qed.
